(** * CommandLine: a shallow embedding of the flag parser and help printer

    The development follows [CommandLine.cpp]: the registry of argument
    definitions, [CommandLine::printHelp] and [CommandLine::parse].
    Caller-owned destinations (the [bool*], [int32_t*], ... stored in the
    [Value] variant) are addresses into an explicit store, so that two
    definitions bound to the same variable alias as they do in the program.
    [parse] runs in a state-and-exception monad over that store and the
    diagnostic stream. *)

From Stdlib Require Import ZArith Ascii String Lia Bool DecimalString DecimalPos.
From stdpp Require Import base option list gmap strings.

Local Open Scope Z_scope.

(** ** Fixed-width arithmetic *)

(** [size_t] is 64 bits wide, [uint32_t] 32 bits; both wrap around. *)
Definition wrap64 (z : Z) : Z := z mod 2 ^ 64.
Definition wrap32 (z : Z) : Z := z mod 2 ^ 32.

(** Conversion of a [uint32_t] to the [int] that [std::setw] takes. *)
Definition to_int (z : Z) : Z := if z <? 2 ^ 31 then z else z - 2 ^ 32.

(** ** [std::string] *)

Module Str.

(** [std::string::npos], the largest [size_t]. *)
Definition npos : Z := 2 ^ 64 - 1.

Definition size (s : string) : Z := Z.of_nat (String.length s).

Definition empty (s : string) : bool :=
  match s with EmptyString => true | String _ _ => false end.

(** The characters of [s] from index [n] on. *)
Fixpoint drop (n : Z) (s : string) : string :=
  match s with
  | EmptyString => EmptyString
  | String _ s' => if n <=? 0 then s else drop (n - 1) s'
  end.

(** The first [n] characters of [s] (all of it when it is shorter). *)
Fixpoint take (n : Z) (s : string) : string :=
  match s with
  | EmptyString => EmptyString
  | String c s' => if n <=? 0 then EmptyString else String c (take (n - 1) s')
  end.

(** [s.substr(pos, count)]; every call in the program has [pos <= size s],
    so the [std::out_of_range] case does not arise. *)
Definition substr (s : string) (pos count : Z) : string :=
  take count (drop pos s).

(** [s.substr(pos)]: the count defaults to [npos], which stands for all
    the rest of the string. *)
Definition substr_from (s : string) (pos : Z) : string := drop pos s.

(** [max_size()]: no implementation lets a string grow beyond it. *)
Definition max_size : Z := 2 ^ 63 - 1.

(** The strings that a [std::string] can hold. *)
Definition representable (s : string) : Prop := size s <= max_size.

(** Offset of the first [c] in [s], if any. *)
Fixpoint index_of (c : ascii) (s : string) : option Z :=
  match s with
  | EmptyString => None
  | String a s' =>
      if Ascii.eqb a c then Some 0
      else match index_of c s' with
           | Some k => Some (k + 1)
           | None => None
           end
  end.

(** [s.find(c, pos)] and [s.find_first_of(c, pos)] for a single character. *)
Definition find (c : ascii) (s : string) (pos : Z) : Z :=
  match index_of c (drop pos s) with
  | Some k => pos + k
  | None => npos
  end.

(** [n] copies of the fill character [' ']. *)
Definition spaces (n : Z) : string :=
  string_of_list_ascii (List.repeat " "%char (Z.to_nat n)).

(** [os << std::left << std::setw(w) << s] on a stream with the default
    fill character: [s], then padding up to the field width. *)
Definition put_left (w : Z) (s : string) : string :=
  s +:+ spaces (w - size s).

(** The double-quote character and the line end written by [std::endl]. *)
Definition dquote : string := String "034"%char EmptyString.
Definition endl : string := String "010"%char EmptyString.

Definition contains (c : ascii) (s : string) : bool :=
  match index_of c s with Some _ => true | None => false end.

End Str.

(** ** Data model *)

(** Address of a caller-owned variable. *)
Definition ptr := Z.

(** Modelled from the spec: the header [CommandLine.hpp] that declares the
    [Value] variant is not among the sources; the data model lists a tagged
    reference to boolean, integer, floating-point or string storage.  The
    integer destination is taken to be [int32_t]. *)
Inductive Value : Type :=
| VInt (p : ptr)
| VFloat (p : ptr)
| VBool (p : ptr)
| VString (p : ptr).

Record Argument : Type := mkArgument {
  mFlags : list string;
  mValue : option Value;
  mHelp : string
}.

Record CommandLine : Type := mkCommandLine {
  mDescription : string;
  m_argc : Z;
  m_argv : list string;
  mArguments : list Argument
}.

(** [CommandLine::CommandLine(description, argc, argv)] *)
Definition CommandLine_new (description : string) (argc : Z) (argv : list string)
  : CommandLine :=
  {| mDescription := description; m_argc := argc; m_argv := argv;
     mArguments := [] |}.

(** [CommandLine::addArgument(flags, value, help)] *)
Definition addArgument (cl : CommandLine) (flags : list string)
    (value : option Value) (help : string) : CommandLine :=
  {| mDescription := mDescription cl; m_argc := m_argc cl; m_argv := m_argv cl;
     mArguments := mArguments cl ++ [mkArgument flags value help] |}.

(** The command line a program holds after constructing it from the process
    arguments ([argc] is the length of [argv]) and registering [args] in
    order. *)
Definition command_line (description : string) (argv : list string)
    (args : list Argument) : CommandLine :=
  fold_left (fun cl a => addArgument cl (mFlags a) (mValue a) (mHelp a)) args
    (CommandLine_new description (Z.of_nat (length argv)) argv).

(** ** [CommandLine::printHelp] *)

(** The inner loop of lines 32-36: the width of an alias block. *)
Definition flagLength (flags : list string) : Z :=
  fold_left (fun acc flag => wrap32 (acc + wrap32 (wrap32 (Str.size flag) + 2)))
    flags 0.

(** Lines 29-39. *)
Definition maxFlagLength (args : list Argument) : Z :=
  fold_left (fun acc a => Z.max acc (flagLength (mFlags a))) args 0.

(** Lines 44-47: every alias followed by a comma and a space. *)
Definition joined_flags (flags : list string) : string :=
  fold_left (fun acc flag => acc +:+ (flag +:+ ", ")) flags EmptyString.

(** Lines 52-53: the alias column, the last comma and space removed. *)
Definition flag_column (maxlen : Z) (flags : list string) : string :=
  let joined := joined_flags flags in
  Str.put_left (to_int maxlen)
    (Str.substr joined 0 (wrap64 (Str.size joined - 2))).

(** Line 68: the start of a continuation line. *)
Definition continuation (maxlen : Z) : string :=
  Str.put_left (to_int (wrap32 (maxlen - 1))) " ".

(** Lines 59-71, the wrapping loop: [sstr] is the pending line, [os] the
    output so far.  [None] when the iteration budget is used up. *)
Fixpoint help_loop (fuel : nat) (maxlen : Z) (help : string)
    (spacePos lineWidth : Z) (sstr os : string) : option string :=
  if spacePos =? Str.npos then Some os
  else
    match fuel with
    | O => None
    | S fuel' =>
        let nextspacePos := Str.find " " help (wrap64 (spacePos + 1)) in
        let sstr :=
          sstr +:+ Str.substr help spacePos (wrap64 (nextspacePos - spacePos)) in
        let lineWidth := wrap64 (lineWidth + wrap64 (nextspacePos - spacePos)) in
        let spacePos := nextspacePos in
        if 60 <? lineWidth then
          help_loop fuel' maxlen help spacePos 0 (continuation maxlen)
            (os +:+ sstr +:+ Str.endl)
        else help_loop fuel' maxlen help spacePos lineWidth sstr os
    end.

(** Lines 42-72 for one argument. *)
Definition print_argument (fuel : nat) (maxlen : Z) (a : Argument) (os : string)
  : option string :=
  help_loop fuel maxlen (mHelp a) 0 0 (flag_column maxlen (mFlags a)) os.

Fixpoint print_arguments (maxlen : Z) (args : list Argument) (os : string)
  : option string :=
  match args with
  | [] => Some os
  | a :: rest =>
      match print_argument (S (String.length (mHelp a))) maxlen a os with
      | Some os' => print_arguments maxlen rest os'
      | None => None
      end
  end.

(** [printHelp(os)]: the text appended to [os]. *)
Definition printHelp (cl : CommandLine) (os : string) : option string :=
  print_arguments (maxFlagLength (mArguments cl)) (mArguments cl)
    (os +:+ mDescription cl +:+ Str.endl).

(** *** The layout the help text is meant to have

    A second description of the help text, from its intended layout rather
    than from the loop: a column of aliases as wide as the widest alias
    block, and the help text cut into words that are laid out greedily. *)

Module HelpSpec.

(** The width of an alias block: each alias and two more characters. *)
Definition block_width (flags : list string) : Z :=
  fold_right (fun flag acc => Str.size flag + 2 + acc) 0 flags.

(** The widest alias block of the registry. *)
Definition column_width (args : list Argument) : Z :=
  fold_right (fun a acc => Z.max (block_width (mFlags a)) acc) 0 args.

(** The aliases separated by a comma and a space. *)
Definition joined (flags : list string) : string := String.concat ", " flags.

(** Every alias followed by its comma and space. *)
Definition trailing (flags : list string) : string :=
  fold_right (fun flag acc => flag +:+ ", " +:+ acc) EmptyString flags.

(** [s] followed by spaces up to the width [w]. *)
Definition pad_right (w : Z) (s : string) : string :=
  s +:+ Str.spaces (w - Str.size s).

Definition glue (c : ascii) (ws : list string) : list string :=
  match ws with
  | [] => [String c EmptyString]
  | w :: rest => String c w :: rest
  end.

(** [s] cut in front of each of its spaces. *)
Fixpoint pieces (s : string) : list string :=
  match s with
  | EmptyString => [EmptyString]
  | String c s' =>
      if Ascii.eqb c " " then EmptyString :: glue c (pieces s')
      else glue c (pieces s')
  end.

(** The words of a help text; each word but the first begins with the
    space in front of it. *)
Definition words (help : string) : list string :=
  match help with
  | EmptyString => [EmptyString]
  | String c s' => glue c (pieces s')
  end.

(** Greedy layout: words are added to the line; once the width of the
    words on it exceeds 60 the line is ended and the next word starts a
    line that begins with [pad].  The last word ends its line. *)
Fixpoint wrap (pad line : string) (width : Z) (ws : list string) : string :=
  match ws with
  | [] => EmptyString
  | word :: rest =>
      let line := line +:+ word in
      let width := width + Str.size word in
      match rest with
      | [] => line +:+ Str.endl
      | _ :: _ =>
          if 60 <? width then line +:+ Str.endl +:+ wrap pad pad 0 rest
          else wrap pad line width rest
      end
  end.

(** The lines of one argument. *)
Definition argument_lines (width : Z) (a : Argument) : string :=
  wrap (Str.spaces (width - 1)) (pad_right width (joined (mFlags a))) 0
    (words (mHelp a)).

(** The whole help text. *)
Definition help_text (cl : CommandLine) : string :=
  mDescription cl +:+ Str.endl
    +:+ String.concat EmptyString
          (map (argument_lines (column_width (mArguments cl)))
             (mArguments cl)).

End HelpSpec.

(** ** Stream extraction *)

(** [sstr >> *arg] on a freshly built [std::stringstream] either stores a
    value that depends on the text alone, or (when the sentry finds nothing
    but white space) stores nothing.  The text-to-floating-point conversion of
    the C++ library is a parameter of the development. *)
Class FloatingPoint : Type := {
  float : Type;
  extract_float : string -> option float
}.

Module Istream.

(** [std::isspace] in the classic locale. *)
Definition isspace (c : ascii) : bool :=
  let n := Z.of_nat (nat_of_ascii c) in
  ((9 <=? n) && (n <=? 13)) || (n =? 32).

(** The sentry of a formatted input function skips leading white space. *)
Fixpoint skipws (s : string) : string :=
  match s with
  | EmptyString => EmptyString
  | String c s' => if isspace c then skipws s' else s
  end.

Definition digit (c : ascii) : option Z :=
  let n := Z.of_nat (nat_of_ascii c) in
  if (48 <=? n) && (n <=? 57) then Some (n - 48) else None.

(** The decimal digits at the front of [s]: their value after [acc], and
    whether there was any. *)
Fixpoint digits (s : string) (acc : Z) (seen : bool) : Z * bool :=
  match s with
  | EmptyString => (acc, seen)
  | String c s' =>
      match digit c with
      | Some d => digits s' (10 * acc + d) true
      | None => (acc, seen)
      end
  end.

(** Values outside the range of [int32_t] are stored as its nearest bound. *)
Definition clamp32 (z : Z) : Z := Z.max (- 2 ^ 31) (Z.min z (2 ^ 31 - 1)).

(** [sstr >> i] for an [int32_t] (ISO C++ [istream.formatted.arithmetic]
    and [facet.num.get.virtuals], C++11 and later): an optional sign and the
    decimal digits after it are accumulated; if they do not form a number,
    zero is stored. *)
Definition extract_int (s : string) : option Z :=
  match skipws s with
  | EmptyString => None
  | String c rest =>
      let '(negative, body) :=
        if Ascii.eqb c "-" then (true, rest)
        else if Ascii.eqb c "+" then (false, rest)
        else (false, String c rest) in
      match digits body 0 false with
      | (n, true) => Some (clamp32 (if negative then - n else n))
      | (_, false) => Some 0
      end
  end.

(** Text made of white space only. *)
Definition all_space (s : string) : bool := Str.empty (skipws s).

Definition starts_with_digit (s : string) : bool :=
  match s with
  | EmptyString => false
  | String c _ => bool_decide (is_Some (digit c))
  end.

(** Text that, after leading white space, begins with a decimal integer
    literal: an optional sign and at least one digit. *)
Definition starts_number (s : string) : bool :=
  match skipws s with
  | EmptyString => false
  | String c rest =>
      if Ascii.eqb c "-" || Ascii.eqb c "+" then starts_with_digit rest
      else starts_with_digit (String c rest)
  end.

End Istream.

(** *** Numbers at the front of a text

    A description of the number a text begins with that does not go through
    the extraction: first the digits, then what they denote. *)

Module Numeral.

(** The decimal digits at the front of [s]. *)
Fixpoint digit_prefix (s : string) : list Z :=
  match s with
  | EmptyString => []
  | String c s' =>
      match Istream.digit c with
      | Some d => d :: digit_prefix s'
      | None => []
      end
  end.

(** The number that a sequence of decimal digits denotes. *)
Definition decimal_value (ds : list Z) : Z :=
  fold_left (fun acc d => 10 * acc + d) ds 0.

(** The number at the front of [s] after its leading white space: an
    optional sign and the digits that follow it. *)
Definition leading_number (s : string) : Z :=
  match Istream.skipws s with
  | EmptyString => 0
  | String c rest =>
      if Ascii.eqb c "-" then - decimal_value (digit_prefix rest)
      else if Ascii.eqb c "+" then decimal_value (digit_prefix rest)
      else decimal_value (digit_prefix (String c rest))
  end.

End Numeral.

(** ** The store and the effects of [parse] *)

Section Model.

Context {FP : FloatingPoint}.

(** The caller's variables, by type, and the text written to [std::cerr]. *)
Record World : Type := mkWorld {
  bools : gmap ptr bool;
  ints : gmap ptr Z;
  floats : gmap ptr float;
  strs : gmap ptr string;
  cerr : string
}.

(** How a call ends: it returns, or a [std::runtime_error] propagates. *)
Inductive outcome (A : Type) : Type :=
| Returned (a : A)
| Thrown (what : string).
Global Arguments Returned {A} a.
Global Arguments Thrown {A} what.

Definition M (A : Type) : Type := World -> World * outcome A.

Definition ret {A : Type} (a : A) : M A := fun w => (w, Returned a).

Definition bind {A B : Type} (m : M A) (k : A -> M B) : M B :=
  fun w =>
    match m w with
    | (w', Returned a) => k a w'
    | (w', Thrown e) => (w', Thrown e)
    end.

Definition throw {A : Type} (what : string) : M A := fun w => (w, Thrown what).

Definition set_bool (p : ptr) (b : bool) : M unit := fun w =>
  ({| bools := <[p := b]> (bools w); ints := ints w; floats := floats w;
      strs := strs w; cerr := cerr w |}, Returned tt).

Definition set_int (p : ptr) (z : Z) : M unit := fun w =>
  ({| bools := bools w; ints := <[p := z]> (ints w); floats := floats w;
      strs := strs w; cerr := cerr w |}, Returned tt).

Definition set_float (p : ptr) (x : float) : M unit := fun w =>
  ({| bools := bools w; ints := ints w; floats := <[p := x]> (floats w);
      strs := strs w; cerr := cerr w |}, Returned tt).

Definition set_string (p : ptr) (s : string) : M unit := fun w =>
  ({| bools := bools w; ints := ints w; floats := floats w;
      strs := <[p := s]> (strs w); cerr := cerr w |}, Returned tt).

Definition print_cerr (s : string) : M unit := fun w =>
  ({| bools := bools w; ints := ints w; floats := floats w;
      strs := strs w; cerr := cerr w +:+ s |}, Returned tt).

End Model.

Notation "x <- m ;; k" := (bind m (fun x => k))
  (at level 100, m at next level, right associativity).
Notation "m ;;; k" := (bind m (fun _ => k))
  (at level 100, right associativity).

Section Parse.

Context {FP : FloatingPoint}.

(** The text of the exception of lines 134-136. *)
Definition missing_value (flag : string) : string :=
  "Failed to parse command line arguments: Missing value for argument "
    +:+ Str.dquote +:+ flag +:+ Str.dquote +:+ "!".

(** The text of the warning of lines 162-163. *)
Definition unknown_argument (flag : string) : string :=
  "Ignoring unknown command line argument " +:+ Str.dquote +:+ flag
    +:+ Str.dquote +:+ "." +:+ Str.endl.

(** Lines 147-152: the generic lambda, at the numeric alternatives. *)
Definition visit_extract (v : Value) (value : string) : M unit :=
  match v with
  | VInt p =>
      match Istream.extract_int value with
      | Some z => set_int p z
      | None => ret tt
      end
  | VFloat p =>
      match extract_float value with
      | Some x => set_float p x
      | None => ret tt
      end
  | VBool _ | VString _ => ret tt
  end.

(** Lines 120-153: decoding [value] into the destination of a matched
    definition; the result is [valueIsSeparate]. *)
Definition store_value (v : Value) (flag value : string)
    (valueIsSeparate : bool) : M bool :=
  match v with
  | VBool p =>
      let valueIsSeparate :=
        if negb (Str.empty value) && negb (String.eqb value "true")
           && negb (String.eqb value "false")
        then false else valueIsSeparate in
      set_bool p (negb (String.eqb value "false")) ;;;
      ret valueIsSeparate
  | _ =>
      if Str.empty value then throw (missing_value flag)
      else
        match v with
        | VString p => set_string p value ;;; ret valueIsSeparate
        | _ => visit_extract v value ;;; ret valueIsSeparate
        end
  end.

(** [std::find(argument.mFlags.begin(), argument.mFlags.end(), flag)
    != std::end(argument.mFlags)] *)
Definition has_flag (flag : string) (a : Argument) : bool :=
  existsb (String.eqb flag) (mFlags a).

(** Lines 108-157: the search through the definitions, left at the first
    one that lists [flag].  The result is
    [(foundArgument, valueIsSeparate)]. *)
Fixpoint search (args : list Argument) (flag value : string)
    (valueIsSeparate : bool) : M (bool * bool) :=
  match args with
  | [] => ret (false, valueIsSeparate)
  | argument :: rest =>
      if has_flag flag argument then
        match mValue argument with
        | None => ret (true, valueIsSeparate)
        | Some v =>
            sep <- store_value v flag value valueIsSeparate ;;
            ret (true, sep)
        end
      else search rest flag value valueIsSeparate
  end.

(** Lines 86-97: the flag and the value of a token. *)
Definition split_token (token : string) : string * string :=
  let flag := token in
  let value := EmptyString in
  let equalPos := Str.find "=" flag 0 in
  if negb (equalPos =? Str.npos) then
    let value := Str.substr_from flag (equalPos + 1) in
    let flag := Str.substr flag 0 equalPos in
    (flag, value)
  else (flag, value).

(** Lines 84-173: one turn of the loop on [m_argv[i]]; the result is the
    next index. *)
Definition parse_iteration (args : list Argument) (i : Z) (token : string)
  : M Z :=
  let '(flag, value) := split_token token in
  let valueIsSeparate := false in
  found <- search args flag value valueIsSeparate ;;
  let '(foundArgument, valueIsSeparate) := found in
  (if negb foundArgument then print_cerr (unknown_argument flag)
   else ret tt) ;;;
  let i := i + 1 in
  let i := if foundArgument && valueIsSeparate then i + 1 else i in
  ret i.

(** Lines 80-174.  [None] stands for no defined result: an index past the
    end of [m_argv], or the iteration budget used up.  The index is an [int];
    it is incremented only while it is below [m_argc], so it never
    overflows. *)
Fixpoint parse_loop (fuel : nat) (cl : CommandLine) (i : Z) (w : World)
  : option (World * outcome unit) :=
  if i <? m_argc cl then
    match fuel with
    | O => None
    | S fuel' =>
        match m_argv cl !! Z.to_nat i with
        | None => None
        | Some token =>
            match parse_iteration (mArguments cl) i token w with
            | (w', Returned i') => parse_loop fuel' cl i' w'
            | (w', Thrown e) => Some (w', Thrown e)
            end
        end
    end
  else Some (w, Returned tt).

(** [CommandLine::parse()] *)
Definition parse (cl : CommandLine) (w : World)
  : option (World * outcome unit) :=
  parse_loop (Z.to_nat (m_argc cl)) cl 1 w.

(** *** The parser seen as a scan of the tokens *)

(** The definition that the search stops at for [flag]. *)
Definition selected (args : list Argument) (flag : string) : option Argument :=
  List.find (has_flag flag) args.

(** What one token does to the store and the diagnostic stream. *)
Definition parse_token (args : list Argument) (token : string) : M unit :=
  let '(flag, value) := split_token token in
  match selected args flag with
  | None => print_cerr (unknown_argument flag)
  | Some a =>
      match mValue a with
      | None => ret tt
      | Some v => store_value v flag value false ;;; ret tt
      end
  end.

(** The tokens taken one at a time from left to right, up to the first
    exception. *)
Fixpoint parse_tokens (args : list Argument) (tokens : list string) : M unit :=
  match tokens with
  | [] => ret tt
  | token :: rest => parse_token args token ;;; parse_tokens args rest
  end.

(** No alias is listed by two definitions. *)
Definition aliases_unique (args : list Argument) : Prop :=
  forall i j a b flag,
    args !! i = Some a -> args !! j = Some b ->
    flag ∈ mFlags a -> flag ∈ mFlags b -> i = j.

(** The four kinds of destinations agree in two worlds. *)
Definition same_destinations (w w' : World) : Prop :=
  bools w = bools w' /\ ints w = ints w' /\ floats w = floats w'
  /\ strs w = strs w'.

(** The value a token's text gives a destination, when it gives one at
    all. *)
Inductive cell : Type :=
| CBool (b : bool)
| CInt (z : Z)
| CFloat (x : float)
| CString (s : string).

Definition decode (v : Value) (value : string) : option cell :=
  match v with
  | VBool _ => Some (CBool (negb (String.eqb value "false")))
  | VString _ => if Str.empty value then None else Some (CString value)
  | VInt _ =>
      if Str.empty value then None
      else CInt <$> Istream.extract_int value
  | VFloat _ =>
      if Str.empty value then None
      else CFloat <$> extract_float value
  end.

(** The content of the variable that [v] points to. *)
Definition content (v : Value) (w : World) : option cell :=
  match v with
  | VBool p => CBool <$> bools w !! p
  | VInt p => CInt <$> ints w !! p
  | VFloat p => CFloat <$> floats w !! p
  | VString p => CString <$> strs w !! p
  end.

(** The destination, if any, that a token writes to. *)
Definition target (args : list Argument) (token : string) : option Value :=
  match selected args (fst (split_token token)) with
  | Some a => mValue a
  | None => None
  end.

(** A definition without the aliases that contain the character [=]. *)
Definition without_equals_aliases (a : Argument) : Argument :=
  {| mFlags := List.filter (fun f => negb (Str.contains "=" f)) (mFlags a);
     mValue := mValue a; mHelp := mHelp a |}.

End Parse.

(** ** A sample program *)

(** An instance for the sample runs: a floating-point value is kept as the
    text it is converted from, and text made of white space only converts to
    nothing. *)
Definition symbolic_floats : FloatingPoint :=
  {| float := string;
     extract_float := fun s =>
       match Istream.skipws s with
       | EmptyString => None
       | String c rest => Some (String c rest)
       end |}.

Definition sample_arguments : list Argument :=
  [ mkArgument ["-v"; "--verbose"] (Some (VBool 1)) "Print more messages";
    mkArgument ["--rate"] (Some (VInt 2)) "Sample rate in Hz";
    mkArgument ["--gain"] (Some (VFloat 3)) "Input gain";
    mkArgument ["--name"] (Some (VString 4)) "Name of the input device";
    mkArgument ["-l"; "--list"] None "List the audio devices" ].

Definition sample_world : @World symbolic_floats :=
  {| bools := {[ 1 := false ]}; ints := {[ 2 := 44100 ]};
     floats := {[ 3 := "1.0" ]}; strs := {[ 4 := "default" ]};
     cerr := EmptyString |}.

(** A registry in which a short help text stands between two long ones. *)
Definition long_help_arguments : list Argument :=
  [ mkArgument ["-h"; "--help"] None
      "Reads audio in fixed-size buffers from the line input and writes the raw samples to the standard output";
    mkArgument ["--rate"] (Some (VInt 2)) "Sample rate in Hz";
    mkArgument ["-o"] (Some (VString 4))
      "Reads audio in fixed-size buffers from the line input and writes the raw samples to the standard output" ].


(** * Further definitions *)

(** ** Notions used to describe [parse] *)

Section ParseNotions.

Context {FP : FloatingPoint}.

(** The registry in which every definition keeps only the aliases that no
    definition registered before it lists ([seen] are the aliases of those
    definitions). *)
Fixpoint without_shadowed (seen : list string) (args : list Argument)
  : list Argument :=
  match args with
  | [] => []
  | a :: rest =>
      {| mFlags := List.filter (fun f => negb (existsb (String.eqb f) seen))
                     (mFlags a);
         mValue := mValue a; mHelp := mHelp a |}
      :: without_shadowed (seen ++ mFlags a) rest
  end.

(** A token that selects a definition bound to a string or a number and
    carries no value. *)
Definition lacks_value (args : list Argument) (token : string) : bool :=
  match target args token with
  | Some (VBool _) | None => false
  | Some _ => Str.empty (split_token token).2
  end.

(** A token whose flag no definition lists. *)
Definition unknown (args : list Argument) (token : string) : bool :=
  match selected args (split_token token).1 with
  | None => true
  | Some _ => false
  end.

(** The warnings for the unknown tokens of a list, in order. *)
Definition warnings (args : list Argument) (tokens : list string) : string :=
  fold_right
    (fun token acc =>
       if unknown args token
       then unknown_argument (split_token token).1 +:+ acc
       else acc)
    EmptyString tokens.

End ParseNotions.

(** * The capture program ([mainfile.cpp]) *)

Module Capture.

(** ** Library functions *)

(** [std::tolower] in the C locale (the program never changes the locale). *)
Definition tolower (c : ascii) : ascii :=
  let n := nat_of_ascii c in
  if ((65 <=? n) && (n <=? 90))%nat then ascii_of_nat (n + 32) else c.

(** [std::isdigit] *)
Definition isdigit (c : ascii) : bool :=
  let n := nat_of_ascii c in ((48 <=? n) && (n <=? 57))%nat.

(** [pat] is found at the very start of [s]. *)
Fixpoint starts_with (pat s : string) : bool :=
  match pat, s with
  | EmptyString, _ => true
  | String _ _, EmptyString => false
  | String a pat', String b s' => Ascii.eqb a b && starts_with pat' s'
  end.

(** Offset of the first occurrence of [pat] in [s], if any. *)
Fixpoint index_of_str (pat s : string) : option Z :=
  if starts_with pat s then Some 0
  else
    match s with
    | EmptyString => None
    | String _ s' =>
        match index_of_str pat s' with
        | Some k => Some (k + 1)
        | None => None
        end
    end.

(** [s.find(pat)] for a C string [pat]. *)
Definition find_str (s pat : string) : Z :=
  match index_of_str pat s with
  | Some k => k
  | None => Str.npos
  end.

(** [a[0]]: the first character, or the terminating null character of an
    empty string. *)
Definition first_char (a : string) : ascii :=
  match a with
  | EmptyString => "000"%char
  | String c _ => c
  end.

(** The exceptions of [std::stoi], [std::stoul] and [std::stod]. *)
Inductive exception : Type :=
| invalid_argument
| out_of_range.

Inductive result (A : Type) : Type :=
| Ok (a : A)
| Raise (e : exception).
Arguments Ok {A} a.
Arguments Raise {A} e.

(** What [strtol] and [strtoul] read in base 10: white space, an optional
    sign and decimal digits.  The result is the sign and the magnitude, or
    nothing when there is no digit. *)
Definition read_integer (s : string) : option (bool * Z) :=
  let '(negative, body) :=
    match Istream.skipws s with
    | EmptyString => (false, EmptyString)
    | String c rest =>
        if Ascii.eqb c "-" then (true, rest)
        else if Ascii.eqb c "+" then (false, rest)
        else (false, String c rest)
    end in
  match Istream.digits body 0 false with
  | (n, true) => Some (negative, n)
  | (_, false) => None
  end.

(** [std::stoi(s)] *)
Definition stoi (s : string) : result Z :=
  match read_integer s with
  | None => Raise invalid_argument
  | Some (negative, n) =>
      let v := if negative then - n else n in
      if (v <? - 2 ^ 31) || (2 ^ 31 - 1 <? v) then Raise out_of_range
      else Ok v
  end.

(** The platform: the width of [unsigned long], and the floating-point
    conversion [std::stod] with the constant [44100.0]. *)
Class Platform : Type := {
  ULONG_MAX : Z;
  double : Type;
  stod : string -> result double;
  rate_44100 : double
}.

(** The part of the PortAudio interface that the device selection reads.
    [name] is the [const char*] of the device, possibly null. *)
Record PaDeviceInfo : Type := {
  name : option string;
  maxInputChannels : Z
}.

Class PortAudio : Type := {
  Pa_GetDeviceCount : Z;
  Pa_GetDeviceInfo : Z -> option PaDeviceInfo;
  Pa_GetDefaultInputDevice : Z
}.

Definition paNoDevice : Z := -1.

(** [os << i] for an [int]. *)
Definition show_int (z : Z) : string := NilZero.string_of_int (Z.to_int z).

(** ** [to_lower], lines 43-46 *)

Fixpoint to_lower (s : string) : string :=
  match s with
  | EmptyString => EmptyString
  | String c s' => String (tolower c) (to_lower s')
  end.

(** ** [find_line_in_device], lines 87-101 *)

Section Devices.

Context {PA : PortAudio}.

(** Lines 92-96: the test on the name of a device. *)
Definition name_matches (info : PaDeviceInfo) : bool :=
  let name := match name info with Some n => n | None => EmptyString end in
  let low := to_lower name in
  negb (find_str low "line" =? Str.npos)
  || negb (find_str low "line in" =? Str.npos)
  || negb (find_str low "line-in" =? Str.npos)
  || negb (find_str low "stereo mix" =? Str.npos).

(** The loop; [None] when the iteration budget is used up. *)
Fixpoint find_line_in_loop (fuel : nat) (numDevices i : Z) : option (option Z) :=
  if i <? numDevices then
    match fuel with
    | O => None
    | S fuel' =>
        match Pa_GetDeviceInfo i with
        | None => find_line_in_loop fuel' numDevices (i + 1)
        | Some info =>
            if name_matches info then
              if 0 <? maxInputChannels info then Some (Some i)
              else find_line_in_loop fuel' numDevices (i + 1)
            else find_line_in_loop fuel' numDevices (i + 1)
        end
    end
  else Some None.

Definition find_line_in_device (numDevices : Z) : option (option Z) :=
  find_line_in_loop (Z.to_nat numDevices) numDevices 0.

(** The devices that the search accepts: present, with an input channel,
    and named after a line input or a stereo mix, in any letter case. *)
Definition line_in (i : Z) : Prop :=
  exists info,
    Pa_GetDeviceInfo i = Some info
    /\ 0 < maxInputChannels info
    /\ exists n, name info = Some n
         /\ (is_Some (index_of_str "line" (to_lower n))
             \/ is_Some (index_of_str "stereo mix" (to_lower n))).

(** Device names are C strings that a [std::string] can hold. *)
Definition names_representable : Prop :=
  forall i info n,
    Pa_GetDeviceInfo i = Some info -> name info = Some n -> Str.representable n.

(** ** Device selection in [main], lines 182-243 *)

(** How the selection ends: [main] returns, or goes on with a device, its
    description and the number of channels. *)
Inductive selection : Type :=
| Exit (code : Z)
| Selected (inputDevice : Z) (deviceInfo : PaDeviceInfo) (channels : Z).

(** The text written to [std::cerr], whether [Pa_Terminate] was called, and
    the end of the selection. *)
Definition selected_run : Type := string * bool * selection.

Definition exit1 (log : string) : option selected_run :=
  Some (log, true, Exit 1).

(** Lines 227-243. *)
Definition check_channels (log : string) (inputDevice channels : Z)
  : option selected_run :=
  match Pa_GetDeviceInfo inputDevice with
  | None =>
      exit1 (log +:+ "Failed to get device info for index "
               +:+ show_int inputDevice +:+ Str.endl)
  | Some deviceInfo =>
      if maxInputChannels deviceInfo <? channels then
        let log :=
          log +:+ "Device supports only "
            +:+ show_int (maxInputChannels deviceInfo)
            +:+ " input channels, but requested " +:+ show_int channels
            +:+ ". Reducing channels to "
            +:+ show_int (maxInputChannels deviceInfo) +:+ "." +:+ Str.endl in
        let channels := maxInputChannels deviceInfo in
        if channels <=? 0 then
          exit1 (log +:+ "No input channels available." +:+ Str.endl)
        else Some (log, false, Selected inputDevice deviceInfo channels)
      else Some (log, false, Selected inputDevice deviceInfo channels)
  end.

(** [Pa_GetDeviceInfo(inputDevice)->name] written to a stream; nothing is
    defined when the description or the name is null. *)
Definition device_name (inputDevice : Z) : option string :=
  match Pa_GetDeviceInfo inputDevice with
  | Some info => name info
  | None => None
  end.

(** Lines 182-225, the choice alone: the text written to [std::cerr] and
    the device chosen, or no device when [main] returns at once.  [None]
    stands for no defined result. *)
Definition choose_device (explicitDeviceIndex : option Z)
  : option (string * option Z) :=
  let numDevices := Pa_GetDeviceCount in
  if numDevices <? 0 then
    Some ("Pa_GetDeviceCount error: " +:+ show_int numDevices +:+ Str.endl, None)
  else
    match explicitDeviceIndex with
    | Some inputDevice =>
        if (inputDevice <? 0) || (numDevices <=? inputDevice) then
          Some ("Invalid device index: " +:+ show_int inputDevice +:+ Str.endl,
                None)
        else
          match Pa_GetDeviceInfo inputDevice with
          | Some info =>
              if maxInputChannels info <=? 0 then
                Some ("Selected device has no input channels." +:+ Str.endl, None)
              else Some (EmptyString, Some inputDevice)
          | None =>
              Some ("Selected device has no input channels." +:+ Str.endl, None)
          end
    | None =>
        match find_line_in_device numDevices with
        | None => None
        | Some (Some inputDevice) =>
            match device_name inputDevice with
            | None => None
            | Some n =>
                Some ("Using device index " +:+ show_int inputDevice
                        +:+ " (matched 'line') : " +:+ n +:+ Str.endl,
                      Some inputDevice)
            end
        | Some None =>
            let inputDevice := Pa_GetDefaultInputDevice in
            if inputDevice =? paNoDevice then
              Some ("No default input device." +:+ Str.endl, None)
            else
              match device_name inputDevice with
              | None => None
              | Some n =>
                  Some ("Using default input device index "
                          +:+ show_int inputDevice +:+ " : " +:+ n +:+ Str.endl,
                        Some inputDevice)
              end
        end
    end.

(** Lines 182-243.  [None] stands for no defined result. *)
Definition select_device (explicitDeviceIndex : option Z) (channels : Z)
  : option selected_run :=
  let numDevices := Pa_GetDeviceCount in
  if numDevices <? 0 then
    exit1 ("Pa_GetDeviceCount error: " +:+ show_int numDevices +:+ Str.endl)
  else
    match explicitDeviceIndex with
    | Some inputDevice =>
        if (inputDevice <? 0) || (numDevices <=? inputDevice) then
          exit1 ("Invalid device index: " +:+ show_int inputDevice +:+ Str.endl)
        else
          match Pa_GetDeviceInfo inputDevice with
          | Some info =>
              if maxInputChannels info <=? 0 then
                exit1 ("Selected device has no input channels." +:+ Str.endl)
              else check_channels EmptyString inputDevice channels
          | None => exit1 ("Selected device has no input channels." +:+ Str.endl)
          end
    | None =>
        match find_line_in_device numDevices with
        | None => None
        | Some (Some inputDevice) =>
            match device_name inputDevice with
            | None => None
            | Some n =>
                check_channels
                  ("Using device index " +:+ show_int inputDevice
                     +:+ " (matched 'line') : " +:+ n +:+ Str.endl)
                  inputDevice channels
            end
        | Some None =>
            let inputDevice := Pa_GetDefaultInputDevice in
            if inputDevice =? paNoDevice then
              exit1 ("No default input device." +:+ Str.endl)
            else
              match device_name inputDevice with
              | None => None
              | Some n =>
                  check_channels
                    ("Using default input device index " +:+ show_int inputDevice
                       +:+ " : " +:+ n +:+ Str.endl)
                    inputDevice channels
              end
        end
    end.

End Devices.

(** ** The command line of [main], lines 110-174 *)

Section Arguments.

Context {PF : Platform}.

(** [std::stoul(s)] *)
Definition stoul (s : string) : result Z :=
  match read_integer s with
  | None => Raise invalid_argument
  | Some (negative, n) =>
      if ULONG_MAX <? n then Raise out_of_range
      else Ok (if negative then (ULONG_MAX + 1 - n) mod (ULONG_MAX + 1) else n)
  end.

(** [a[1]], read only when [a] has two characters. *)
Definition second_char (a : string) : ascii :=
  match a with
  | String _ (String c _) => c
  | _ => "000"%char
  end.

(** The local variables of lines 111-114. *)
Record Settings : Type := {
  framesPerBuffer : Z;
  channels : Z;
  sampleRate : double;
  explicitDeviceIndex : option Z
}.

Definition defaults : Settings :=
  {| framesPerBuffer := 4096; channels := 2; sampleRate := rate_44100;
     explicitDeviceIndex := None |}.

(** How the handling of the command line ends: the listing branch of lines
    122-129 is taken (and [main] returns from it), the settings are complete,
    or a conversion throws and nothing catches the exception. *)
Inductive scan : Type :=
| Listing
| Scanned (st : Settings)
| Uncaught (e : exception).

(** Lines 117-155.  [None] stands for no defined result: an index past the
    end of [argv], or the iteration budget used up. *)
Fixpoint options_loop (fuel : nat) (argc : Z) (argv : list string) (i : Z)
    (st : Settings) : option scan :=
  if i <? argc then
    match fuel with
    | O => None
    | S fuel' =>
        match argv !! Z.to_nat i with
        | None => None
        | Some a =>
            if String.eqb a "--list-devices" || String.eqb a "-l" then
              Some Listing
            else if String.eqb a "--device" && (i + 1 <? argc) then
              let i := i + 1 in
              match argv !! Z.to_nat i with
              | None => None
              | Some v =>
                  match stoi v with
                  | Raise e => Some (Uncaught e)
                  | Ok n =>
                      options_loop fuel' argc argv (i + 1)
                        {| framesPerBuffer := framesPerBuffer st;
                           channels := channels st;
                           sampleRate := sampleRate st;
                           explicitDeviceIndex := Some n |}
                  end
              end
            else if (2 <=? Str.size a) && Ascii.eqb (first_char a) "-"
                    && Ascii.eqb (second_char a) "-" then
              options_loop fuel' argc argv (i + 1) st
            else if isdigit (first_char a) then
              if framesPerBuffer st =? 0 then
                match stoul a with
                | Raise e => Some (Uncaught e)
                | Ok n =>
                    options_loop fuel' argc argv (i + 1)
                      {| framesPerBuffer := n; channels := channels st;
                         sampleRate := sampleRate st;
                         explicitDeviceIndex := explicitDeviceIndex st |}
                end
              else if channels st =? 0 then
                match stoi a with
                | Raise e => Some (Uncaught e)
                | Ok n =>
                    options_loop fuel' argc argv (i + 1)
                      {| framesPerBuffer := framesPerBuffer st; channels := n;
                         sampleRate := sampleRate st;
                         explicitDeviceIndex := explicitDeviceIndex st |}
                end
              else options_loop fuel' argc argv (i + 1) st
            else options_loop fuel' argc argv (i + 1) st
        end
    end
  else Some (Scanned st).

(** Lines 159-174: the numbers at the front of the command line. *)
Definition positional (argc : Z) (argv : list string) (st : Settings)
  : option scan :=
  let pos := 1 in
  if pos <? argc then
    match argv !! Z.to_nat pos with
    | None => None
    | Some a1 =>
        if isdigit (first_char a1) then
          match stoul a1 with
          | Raise e => Some (Uncaught e)
          | Ok frames =>
              let st :=
                {| framesPerBuffer := frames; channels := channels st;
                   sampleRate := sampleRate st;
                   explicitDeviceIndex := explicitDeviceIndex st |} in
              let pos := pos + 1 in
              if pos <? argc then
                match argv !! Z.to_nat pos with
                | None => None
                | Some a2 =>
                    if isdigit (first_char a2) then
                      match stoi a2 with
                      | Raise e => Some (Uncaught e)
                      | Ok count =>
                          let st :=
                            {| framesPerBuffer := framesPerBuffer st;
                               channels := count;
                               sampleRate := sampleRate st;
                               explicitDeviceIndex := explicitDeviceIndex st |} in
                          let pos := pos + 1 in
                          if pos <? argc then
                            match argv !! Z.to_nat pos with
                            | None => None
                            | Some a3 =>
                                if isdigit (first_char a3)
                                   || Ascii.eqb (first_char a3) "." then
                                  match stod a3 with
                                  | Raise e => Some (Uncaught e)
                                  | Ok rate =>
                                      Some (Scanned
                                        {| framesPerBuffer := framesPerBuffer st;
                                           channels := channels st;
                                           sampleRate := rate;
                                           explicitDeviceIndex :=
                                             explicitDeviceIndex st |})
                                  end
                                else Some (Scanned st)
                            end
                          else Some (Scanned st)
                      end
                    else Some (Scanned st)
                end
              else Some (Scanned st)
          end
        else Some (Scanned st)
    end
  else Some (Scanned st).

(** Lines 110-174 for the process arguments [argv] ([argc] is their
    number). *)
Definition main_arguments (argv : list string) : option scan :=
  let argc := Z.of_nat (length argv) in
  match options_loop (Z.to_nat argc) argc argv 1 defaults with
  | Some (Scanned st) => positional argc argv st
  | other => other
  end.

(** *** The options seen as a scan of the tokens *)

Inductive device_scan : Type :=
| ListingAsked
| DeviceIs (device : option Z)
| ConversionFailed (e : exception).

(** The tokens from left to right: a listing flag ends the scan, [--device]
    takes the token after it as a number, everything else is passed over. *)
Fixpoint scan_options (tokens : list string) (device : option Z) : device_scan :=
  match tokens with
  | [] => DeviceIs device
  | a :: rest =>
      if String.eqb a "--list-devices" || String.eqb a "-l" then ListingAsked
      else if String.eqb a "--device" then
        match rest with
        | [] => DeviceIs device
        | v :: rest' =>
            match stoi v with
            | Ok n => scan_options rest' (Some n)
            | Raise e => ConversionFailed e
            end
        end
      else scan_options rest device
  end.

Definition listing_flag (a : string) : bool :=
  String.eqb a "--list-devices" || String.eqb a "-l".

(** How the loop of lines 117-155 reads a token that comes after [tokens]:
    not at all when a listing flag or a failed conversion ends the loop
    within [tokens]; as the value of [--device] when the last of [tokens] is
    a [--device] that the loop meets as an option; as an option otherwise. *)
Inductive reading : Type :=
| NotRead
| AsOption
| AsValue.

Fixpoint next_read (tokens : list string) : reading :=
  match tokens with
  | [] => AsOption
  | a :: rest =>
      if listing_flag a then NotRead
      else if String.eqb a "--device" then
        match rest with
        | [] => AsValue
        | v :: rest' =>
            match stoi v with
            | Ok _ => next_read rest'
            | Raise _ => NotRead
            end
        end
      else next_read rest
  end.

(** The numbers read from the front of the tokens: the first token if it
    starts with a digit, then the second under the same condition, then the
    third if it starts with a digit or a point. *)
Definition leading_numbers (tokens : list string) (st : Settings) : scan :=
  match tokens with
  | [] => Scanned st
  | a1 :: rest1 =>
      if isdigit (first_char a1) then
        match stoul a1 with
        | Raise e => Uncaught e
        | Ok frames =>
            let st :=
              {| framesPerBuffer := frames; channels := channels st;
                 sampleRate := sampleRate st;
                 explicitDeviceIndex := explicitDeviceIndex st |} in
            match rest1 with
            | [] => Scanned st
            | a2 :: rest2 =>
                if isdigit (first_char a2) then
                  match stoi a2 with
                  | Raise e => Uncaught e
                  | Ok count =>
                      let st :=
                        {| framesPerBuffer := framesPerBuffer st;
                           channels := count; sampleRate := sampleRate st;
                           explicitDeviceIndex := explicitDeviceIndex st |} in
                      match rest2 with
                      | [] => Scanned st
                      | a3 :: _ =>
                          if isdigit (first_char a3)
                             || Ascii.eqb (first_char a3) "." then
                            match stod a3 with
                            | Raise e => Uncaught e
                            | Ok rate =>
                                Scanned
                                  {| framesPerBuffer := framesPerBuffer st;
                                     channels := channels st;
                                     sampleRate := rate;
                                     explicitDeviceIndex :=
                                       explicitDeviceIndex st |}
                            end
                          else Scanned st
                      end
                  end
                else Scanned st
            end
        end
      else Scanned st
  end.

End Arguments.

(** A 64-bit platform for the sample runs.  A floating-point value is kept
    as the text it is converted from; a text that has no digit at its front,
    or behind the point at its front, has no conversion, as for [std::stod].
    The range of [double] is not part of the sample. *)
Definition sample_platform : Platform :=
  {| ULONG_MAX := 2 ^ 64 - 1; double := string;
     stod := fun s =>
       let body :=
         match s with
         | String c rest => if Ascii.eqb c "." then rest else s
         | EmptyString => s
         end in
       if isdigit (first_char body) then Ok s else Raise invalid_argument;
     rate_44100 := "44100.0" |}.

(** A sample table of devices. *)
Definition sample_devices : PortAudio :=
  {| Pa_GetDeviceCount := 4;
     Pa_GetDeviceInfo := fun i =>
       if i =? 0 then Some {| name := Some "Speakers"; maxInputChannels := 0 |}
       else if i =? 1 then Some {| name := Some "LINE Out"; maxInputChannels := 0 |}
       else if i =? 2 then Some {| name := Some "Microphone"; maxInputChannels := 1 |}
       else if i =? 3 then Some {| name := Some "Rear Line-In"; maxInputChannels := 2 |}
       else None;
     Pa_GetDefaultInputDevice := 2 |}.

End Capture.


(** * Properties *)

(** ** Strings *)

Module StrFacts.
Import Str.

Lemma size_nonneg s : 0 <= size s.
Proof. unfold size. lia. Qed.

Lemma size_String c s : size (String c s) = size s + 1.
Proof. unfold size. cbn [String.length]. lia. Qed.

Lemma size_empty : size EmptyString = 0.
Proof. reflexivity. Qed.

Lemma app_empty_l s : EmptyString +:+ s = s.
Proof. reflexivity. Qed.

Lemma app_String c a b : String c a +:+ b = String c (a +:+ b).
Proof. reflexivity. Qed.

Lemma size_app a b : size (a +:+ b) = size a + size b.
Proof.
  induction a as [|c a IH]; rewrite ?app_empty_l, ?app_String.
  - rewrite size_empty. lia.
  - rewrite !size_String. lia.
Qed.

Lemma app_empty_r s : s +:+ EmptyString = s.
Proof. induction s as [|c s IH]; rewrite ?app_empty_l, ?app_String; congruence. Qed.

Lemma app_assoc a b c : (a +:+ b) +:+ c = a +:+ (b +:+ c).
Proof. induction a as [|x a IH]; rewrite ?app_empty_l, ?app_String; congruence. Qed.

Lemma drop_nonpos n s : n <= 0 -> drop n s = s.
Proof.
  intros Hn. destruct s as [|c s]; cbn; [reflexivity|].
  destruct (Z.leb_spec n 0); [reflexivity | lia].
Qed.

Lemma drop_String n c s : 0 < n -> drop n (String c s) = drop (n - 1) s.
Proof. intros Hn. cbn. destruct (Z.leb_spec n 0); [lia | reflexivity]. Qed.

Lemma take_nonpos n s : n <= 0 -> take n s = EmptyString.
Proof.
  intros Hn. destruct s as [|c s]; cbn; [reflexivity|].
  destruct (Z.leb_spec n 0); [reflexivity | lia].
Qed.

Lemma take_String n c s : 0 < n -> take n (String c s) = String c (take (n - 1) s).
Proof. intros Hn. cbn. destruct (Z.leb_spec n 0); [lia | reflexivity]. Qed.

Lemma take_all n s : size s <= n -> take n s = s.
Proof.
  revert n. induction s as [|c s IH]; intros n Hn; [reflexivity|].
  rewrite size_String in Hn. pose proof (size_nonneg s).
  rewrite take_String by lia. f_equal. apply IH. lia.
Qed.

Lemma drop_all n s : size s <= n -> drop n s = EmptyString.
Proof.
  revert n. induction s as [|c s IH]; intros n Hn; [reflexivity|].
  rewrite size_String in Hn. pose proof (size_nonneg s).
  rewrite drop_String by lia. apply IH. lia.
Qed.

Lemma take_drop n s : take n s +:+ drop n s = s.
Proof.
  revert n. induction s as [|c s IH]; intros n; [reflexivity|].
  destruct (Z.leb_spec n 0) as [Hn|Hn].
  - rewrite take_nonpos, drop_nonpos by lia. reflexivity.
  - rewrite take_String, drop_String by lia. rewrite app_String. f_equal. apply IH.
Qed.

Lemma size_take n s : 0 <= n <= size s -> size (take n s) = n.
Proof.
  revert n. induction s as [|c s IH]; intros n Hn.
  - rewrite size_empty in *. cbn. rewrite size_empty. lia.
  - rewrite size_String in Hn. destruct (Z.leb_spec n 0) as [H0|H0].
    + rewrite take_nonpos by lia. rewrite size_empty. lia.
    + rewrite take_String by lia. rewrite size_String, IH by lia. lia.
Qed.

Lemma size_drop n s : 0 <= n <= size s -> size (drop n s) = size s - n.
Proof.
  revert n. induction s as [|c s IH]; intros n Hn.
  - rewrite size_empty in *. cbn. rewrite size_empty. lia.
  - rewrite size_String in Hn. destruct (Z.leb_spec n 0) as [H0|H0].
    + rewrite drop_nonpos by lia. lia.
    + rewrite drop_String by lia. rewrite IH by lia. rewrite size_String. lia.
Qed.

Lemma take_app_size a b : take (size a) (a +:+ b) = a.
Proof.
  induction a as [|c a IH]; rewrite ?app_empty_l, ?app_String.
  - apply take_nonpos. rewrite size_empty. lia.
  - pose proof (size_nonneg a). rewrite size_String, take_String by lia.
    f_equal. replace (size a + 1 - 1) with (size a) by lia. exact IH.
Qed.

Lemma drop_app_size a b : drop (size a) (a +:+ b) = b.
Proof.
  induction a as [|c a IH]; rewrite ?app_empty_l, ?app_String.
  - apply drop_nonpos. rewrite size_empty. lia.
  - pose proof (size_nonneg a). rewrite size_String, drop_String by lia.
    replace (size a + 1 - 1) with (size a) by lia. exact IH.
Qed.

Lemma drop_drop n m s : 0 <= n -> 0 <= m -> drop m (drop n s) = drop (n + m) s.
Proof.
  revert n. induction s as [|c s IH]; intros n Hn Hm.
  - cbn. reflexivity.
  - destruct (Z.leb_spec n 0) as [H0|H0].
    + rewrite (drop_nonpos n) by lia. f_equal. lia.
    + rewrite (drop_String n) by lia. rewrite IH by lia.
      rewrite (drop_String (n + m)) by lia. f_equal. lia.
Qed.

Lemma empty_iff s : empty s = true <-> s = EmptyString.
Proof. destruct s; cbn; split; congruence. Qed.

Lemma empty_false_iff s : empty s = false <-> s <> EmptyString.
Proof. destruct s; cbn; split; congruence. Qed.

(** *** Searching for a character *)

Lemma index_of_bounds c s k : index_of c s = Some k -> 0 <= k < size s.
Proof.
  revert k. induction s as [|a s IH]; intros k; cbn [index_of]; [discriminate|].
  rewrite size_String. destruct (Ascii.eqb a c).
  - intros [= <-]. pose proof (size_nonneg s). lia.
  - destruct (index_of c s) as [k'|]; [|discriminate].
    intros [= <-]. specialize (IH k' eq_refl). lia.
Qed.

Lemma index_of_split c s k :
  index_of c s = Some k ->
  s = take k s +:+ String c (drop (k + 1) s) /\ contains c (take k s) = false.
Proof.
  revert k. induction s as [|a s IH]; intros k; cbn [index_of]; [discriminate|].
  destruct (Ascii.eqb_spec a c) as [->|Hne].
  - intros [= <-]. rewrite take_nonpos by lia. rewrite drop_String by lia.
    rewrite drop_nonpos by lia. split; reflexivity.
  - destruct (index_of c s) as [k'|] eqn:Hk; [|discriminate].
    intros [= <-]. destruct (index_of_bounds _ _ _ Hk) as [Hk0 _].
    destruct (IH k' eq_refl) as [Hs Hc].
    rewrite take_String, drop_String by lia.
    replace (k' + 1 - 1) with k' by lia.
    replace (k' + 1 + 1 - 1) with (k' + 1) by lia. split.
    + rewrite app_String. f_equal. exact Hs.
    + unfold contains in *. cbn [index_of].
      destruct (Ascii.eqb_spec a c); [contradiction|].
      destruct (index_of c (take k' s)); [discriminate | reflexivity].
Qed.

Lemma contains_false c s : contains c s = false <-> index_of c s = None.
Proof. unfold contains. destruct (index_of c s); split; congruence. Qed.

Lemma index_of_app c a b :
  contains c a = false -> index_of c (a +:+ String c b) = Some (size a).
Proof.
  induction a as [|x a IH]; rewrite ?app_empty_l, ?app_String; intros Hc.
  - cbn. rewrite Ascii.eqb_refl. reflexivity.
  - unfold contains in Hc. cbn [index_of] in *.
    destruct (Ascii.eqb x c); [discriminate|].
    destruct (index_of c a) eqn:Ha; [discriminate|].
    rewrite IH by (unfold contains; rewrite Ha; reflexivity).
    rewrite size_String. reflexivity.
Qed.

Lemma find_0 c s :
  find c s 0 = match index_of c s with Some k => k | None => npos end.
Proof. unfold find. rewrite drop_nonpos by lia. destruct (index_of c s); reflexivity. Qed.

End StrFacts.

(** ** The parser *)

Section ParseFacts.

Context {FP : FloatingPoint}.
Implicit Types (w : World) (args : list Argument) (tokens : list string).

Lemma command_line_fields d argv args :
  command_line d argv args
  = mkCommandLine d (Z.of_nat (length argv)) argv args.
Proof.
  unfold command_line.
  assert (Hfold : forall cl,
    fold_left (fun cl a => addArgument cl (mFlags a) (mValue a) (mHelp a)) args cl
    = mkCommandLine (mDescription cl) (m_argc cl) (m_argv cl)
        (mArguments cl ++ args)).
  { induction args as [|a args IH]; intros cl; simpl.
    - rewrite app_nil_r. destruct cl; reflexivity.
    - rewrite IH. simpl. destruct a; simpl. rewrite <- app_assoc. reflexivity. }
  rewrite Hfold. reflexivity.
Qed.

(** *** Splitting a token *)

Lemma split_token_index token :
  Str.representable token ->
  split_token token =
    match Str.index_of "=" token with
    | Some k => (Str.take k token, Str.drop (k + 1) token)
    | None => (token, EmptyString)
    end.
Proof.
  intros Hrep. unfold split_token. rewrite StrFacts.find_0.
  destruct (Str.index_of "=" token) as [k|] eqn:Hk; [|reflexivity].
  apply StrFacts.index_of_bounds in Hk.
  unfold Str.representable, Str.max_size in Hrep.
  destruct (Z.eqb_spec k Str.npos) as [E|_]; [unfold Str.npos in E; lia|].
  simpl negb. cbv iota.
  unfold Str.substr, Str.substr_from.
  rewrite (StrFacts.drop_nonpos 0) by lia. reflexivity.
Qed.

Lemma split_token_bare flag :
  Str.contains "=" flag = false -> split_token flag = (flag, EmptyString).
Proof.
  intros Hc. apply StrFacts.contains_false in Hc.
  unfold split_token. rewrite StrFacts.find_0, Hc. reflexivity.
Qed.

Lemma representable_app_l a b :
  Str.representable (a +:+ b) -> Str.representable a.
Proof.
  unfold Str.representable, Str.max_size. rewrite StrFacts.size_app.
  pose proof (StrFacts.size_nonneg b). lia.
Qed.

Lemma split_token_attached flag value :
  Str.representable flag -> Str.contains "=" flag = false ->
  split_token (flag +:+ "=" +:+ value) = (flag, value).
Proof.
  intros Hrep Hc. unfold split_token. rewrite StrFacts.find_0.
  change ("=" +:+ value) with (String "="%char value).
  rewrite (StrFacts.index_of_app _ _ _ Hc).
  unfold Str.representable, Str.max_size in Hrep.
  destruct (Z.eqb_spec (Str.size flag) Str.npos) as [E|_];
    [unfold Str.npos in E; lia|].
  simpl negb. cbv iota. unfold Str.substr, Str.substr_from.
  rewrite (StrFacts.drop_nonpos 0) by lia.
  rewrite StrFacts.take_app_size.
  pose proof (StrFacts.size_nonneg flag).
  rewrite <- (StrFacts.drop_drop (Str.size flag) 1) by lia.
  rewrite StrFacts.drop_app_size.
  rewrite StrFacts.drop_String by lia.
  rewrite StrFacts.drop_nonpos by lia. reflexivity.
Qed.

Lemma split_token_no_equals token :
  Str.representable token ->
  Str.contains "=" (fst (split_token token)) = false.
Proof.
  intros Hrep. rewrite (split_token_index _ Hrep).
  destruct (Str.index_of "=" token) as [k|] eqn:Hk; simpl.
  - apply (StrFacts.index_of_split _ _ _ Hk).
  - apply StrFacts.contains_false. exact Hk.
Qed.

(** *** The search and one turn of the loop *)

Lemma store_value_separate v flag value w :
  store_value v flag value false w
  = (store_value v flag value false ;;; ret false) w.
Proof.
  unfold store_value, bind.
  destruct v; destruct (Str.empty value) eqn:He; simpl;
    try reflexivity.
  - unfold visit_extract. destruct (Istream.extract_int value); reflexivity.
  - unfold visit_extract. destruct (extract_float value); reflexivity.
  - destruct (negb (String.eqb value "true") && negb (String.eqb value "false"));
      reflexivity.
Qed.

Lemma search_selected args flag value sep w :
  search args flag value sep w =
    match selected args flag with
    | None => (w, Returned (false, sep))
    | Some a =>
        match mValue a with
        | None => (w, Returned (true, sep))
        | Some v => (s <- store_value v flag value sep ;; ret (true, s)) w
        end
    end.
Proof.
  unfold selected. induction args as [|a args IH]; simpl; [reflexivity|].
  destruct (has_flag flag a); [|exact IH].
  destruct (mValue a); reflexivity.
Qed.

Lemma parse_iteration_token args i token w :
  parse_iteration args i token w = (parse_token args token ;;; ret (i + 1)) w.
Proof.
  unfold parse_iteration, parse_token.
  destruct (split_token token) as [flag value].
  unfold bind at 1. rewrite search_selected.
  destruct (selected args flag) as [a|]; [|reflexivity].
  destruct (mValue a) as [v|]; [|reflexivity].
  unfold bind at 1. rewrite store_value_separate. unfold bind.
  destruct (store_value v flag value false w) as [w' [s|e]]; reflexivity.
Qed.

Lemma parse_loop_tokens d argv args fuel i w :
  0 <= i -> Z.of_nat (length argv) - i <= Z.of_nat fuel ->
  parse_loop fuel (mkCommandLine d (Z.of_nat (length argv)) argv args) i w
  = Some (parse_tokens args (drop (Z.to_nat i) argv) w).
Proof.
  revert i w. induction fuel as [|fuel IH]; intros i w Hi Hfuel.
  - simpl. destruct (Z.ltb_spec i (Z.of_nat (length argv))); [lia|].
    rewrite drop_ge by lia. reflexivity.
  - cbn [parse_loop m_argc m_argv mArguments].
    destruct (Z.ltb_spec i (Z.of_nat (length argv))) as [Hlt|Hge].
    + destruct (lookup_lt_is_Some_2 argv (Z.to_nat i)) as [token Htok]; [lia|].
      rewrite Htok, (drop_S _ _ _ Htok). cbn [parse_tokens].
      rewrite parse_iteration_token. unfold bind.
      destruct (parse_token args token w) as [w' [[]|e]]; [|reflexivity].
      unfold ret. rewrite IH by lia. do 3 f_equal. lia.
    + rewrite drop_ge by lia. reflexivity.
Qed.

Lemma parse_scan d argv args w :
  parse (command_line d argv args) w = Some (parse_tokens args (tail argv) w).
Proof.
  rewrite command_line_fields. unfold parse. cbn [m_argc].
  rewrite parse_loop_tokens by lia.
  destruct argv; reflexivity.
Qed.

(** *** Scanning a list of tokens *)

Lemma parse_tokens_app args t1 t2 w :
  parse_tokens args (t1 ++ t2) w
  = (parse_tokens args t1 ;;; parse_tokens args t2) w.
Proof.
  revert w. induction t1 as [|t t1 IH]; intros w; simpl; [reflexivity|].
  unfold bind. destruct (parse_token args t w) as [w' [[]|e]]; [|reflexivity].
  rewrite IH. reflexivity.
Qed.

Lemma parse_token_split args token flag value w :
  split_token token = (flag, value) ->
  parse_token args token w =
    match selected args flag with
    | None => print_cerr (unknown_argument flag) w
    | Some a =>
        match mValue a with
        | None => (w, Returned tt)
        | Some v => (store_value v flag value false ;;; ret tt) w
        end
    end.
Proof.
  intros Hs. unfold parse_token. rewrite Hs.
  destruct (selected args flag) as [a|]; [|reflexivity].
  destruct (mValue a); reflexivity.
Qed.

Lemma selected_None args flag :
  selected args flag = None <-> forall a, a ∈ args -> flag ∉ mFlags a.
Proof.
  unfold selected. split.
  - intros Hnone a Ha Hin. apply list_elem_of_In in Ha.
    pose proof (find_none _ _ Hnone a Ha) as Hf.
    unfold has_flag in Hf. apply not_true_iff_false in Hf. apply Hf.
    apply existsb_exists. exists flag. split.
    + apply list_elem_of_In. exact Hin.
    + apply String.eqb_refl.
  - intros Hall. destruct (find (has_flag flag) args) as [a|] eqn:Hf; [|reflexivity].
    apply find_some in Hf as [Ha Hflag]. exfalso.
    apply (Hall a); [apply list_elem_of_In; exact Ha|].
    unfold has_flag in Hflag. apply existsb_exists in Hflag as (x & Hx & Heq).
    apply String.eqb_eq in Heq. subst x. apply list_elem_of_In. exact Hx.
Qed.

Lemma selected_Some args flag a :
  selected args flag = Some a -> a ∈ args /\ flag ∈ mFlags a.
Proof.
  unfold selected. intros Hf. apply find_some in Hf as [Ha Hflag]. split.
  - apply list_elem_of_In. exact Ha.
  - unfold has_flag in Hflag. apply existsb_exists in Hflag as (x & Hx & Heq).
    apply String.eqb_eq in Heq. subst x. apply list_elem_of_In. exact Hx.
Qed.

Lemma has_flag_true flag a : has_flag flag a = true <-> flag ∈ mFlags a.
Proof.
  unfold has_flag. rewrite existsb_exists. split.
  - intros (x & Hx & Heq). apply String.eqb_eq in Heq. subst x.
    apply list_elem_of_In. exact Hx.
  - intros Hin. exists flag. split; [apply list_elem_of_In; exact Hin|].
    apply String.eqb_refl.
Qed.

(** With unique aliases, the definition the search stops at is the one
    that lists the flag. *)
Lemma selected_unique args flag a :
  aliases_unique args -> a ∈ args -> flag ∈ mFlags a ->
  selected args flag = Some a.
Proof.
  unfold selected. induction args as [|b args IH]; intros Hu Ha Hin.
  - inversion Ha.
  - simpl. destruct (has_flag flag b) eqn:Hb.
    + apply has_flag_true in Hb. apply list_elem_of_lookup in Ha as [i Hi].
      assert (i = 0%nat) as ->
        by (apply (Hu i 0%nat a b flag); [exact Hi | reflexivity | exact Hin | exact Hb]).
      simpl in Hi. congruence.
    + apply IH.
      * intros i j x y f Hi Hj Hx Hy.
        assert (S i = S j) by (apply (Hu (S i) (S j) x y f); assumption). lia.
      * apply elem_of_cons in Ha as [->|Ha]; [|exact Ha].
        apply has_flag_true in Hin. congruence.
      * exact Hin.
Qed.

(** *** The diagnostic stream does not influence the destinations *)

Lemma store_value_same v flag value sep w1 w2 :
  same_destinations w1 w2 ->
  same_destinations (store_value v flag value sep w1).1
                    (store_value v flag value sep w2).1
  /\ (store_value v flag value sep w1).2 = (store_value v flag value sep w2).2.
Proof.
  intros (Hb & Hi & Hf & Hs). unfold store_value, visit_extract, bind.
  destruct v; destruct (Str.empty value); simpl;
    try destruct (Istream.extract_int value);
    try destruct (extract_float value);
    simpl; unfold same_destinations; simpl; rewrite ?Hb, ?Hi, ?Hf, ?Hs; tauto.
Qed.

Lemma parse_token_same args token w1 w2 :
  same_destinations w1 w2 ->
  same_destinations (parse_token args token w1).1 (parse_token args token w2).1
  /\ (parse_token args token w1).2 = (parse_token args token w2).2.
Proof.
  intros Hsame. unfold parse_token.
  destruct (split_token token) as [flag value].
  destruct (selected args flag) as [a|].
  - destruct (mValue a) as [v|]; [|split; [exact Hsame | reflexivity]].
    destruct (store_value_same v flag value false w1 w2 Hsame) as [H1 H2].
    unfold bind.
    destruct (store_value v flag value false w1) as [w1' [s1|e1]];
      destruct (store_value v flag value false w2) as [w2' [s2|e2]];
      simpl in *; try discriminate; split; try assumption; try reflexivity;
      congruence.
  - split; [|reflexivity]. unfold print_cerr. simpl. exact Hsame.
Qed.

Lemma parse_tokens_same args tokens w1 w2 :
  same_destinations w1 w2 ->
  same_destinations (parse_tokens args tokens w1).1 (parse_tokens args tokens w2).1
  /\ (parse_tokens args tokens w1).2 = (parse_tokens args tokens w2).2.
Proof.
  revert w1 w2. induction tokens as [|t tokens IH]; intros w1 w2 Hsame.
  - split; [exact Hsame | reflexivity].
  - simpl. unfold bind.
    destruct (parse_token_same args t w1 w2 Hsame) as [H1 H2].
    destruct (parse_token args t w1) as [w1' [[]|e1]];
      destruct (parse_token args t w2) as [w2' [[]|e2]];
      simpl in *; try discriminate.
    + apply IH. exact H1.
    + split; assumption.
Qed.

(** *** Writes that leave a destination alone *)

Lemma store_value_load_other v u flag value sep w :
  u <> v -> content v (store_value u flag value sep w).1 = content v w.
Proof.
  intros Hne. unfold store_value, visit_extract, bind.
  destruct u; destruct (Str.empty value); simpl;
    try destruct (Istream.extract_int value);
    try destruct (extract_float value);
    simpl; try reflexivity;
    destruct v; simpl; try reflexivity;
    rewrite lookup_insert_ne; congruence.
Qed.

Lemma parse_token_load_other args token v w :
  target args token <> Some v ->
  content v (parse_token args token w).1 = content v w.
Proof.
  unfold target, parse_token. destruct (split_token token) as [flag value].
  simpl. destruct (selected args flag) as [a|]; [|reflexivity].
  destruct (mValue a) as [u|]; [|reflexivity].
  intros Hne. unfold bind.
  pose proof (store_value_load_other v u flag value false w) as Hl.
  destruct (store_value u flag value false w) as [w' [s|e]]; simpl in *;
    apply Hl; congruence.
Qed.

Lemma parse_tokens_load_other args tokens v w :
  Forall (fun t => target args t <> Some v) tokens ->
  content v (parse_tokens args tokens w).1 = content v w.
Proof.
  revert w. induction tokens as [|t tokens IH]; intros w Hall; [reflexivity|].
  inversion Hall as [|? ? Ht Hrest]; subst. simpl. unfold bind.
  pose proof (parse_token_load_other args t v w Ht) as Hl.
  destruct (parse_token args t w) as [w' [[]|e]]; simpl in *.
  - rewrite IH by assumption. exact Hl.
  - exact Hl.
Qed.

(** A token whose text decodes stores the decoded value. *)
Lemma store_value_decode v flag value c w :
  decode v value = Some c ->
  exists w', (store_value v flag value false ;;; ret tt) w = (w', Returned tt)
             /\ content v w' = Some c.
Proof.
  unfold decode, store_value, visit_extract, bind.
  destruct v; destruct (Str.empty value); simpl; try discriminate;
    try (destruct (Istream.extract_int value) as [z|]; simpl; [|discriminate]);
    try (destruct (extract_float value) as [x|]; simpl; [|discriminate]);
    intros [= <-]; eexists;
    (split; [reflexivity | simpl; rewrite lookup_insert_eq; reflexivity]).
Qed.

Lemma parse_token_thrown args token w w' e :
  parse_token args token w = (w', Thrown e) ->
  w' = w /\ e = missing_value (fst (split_token token))
  /\ exists a v, selected args (fst (split_token token)) = Some a
                 /\ mValue a = Some v /\ (forall p, v <> VBool p)
                 /\ snd (split_token token) = EmptyString.
Proof.
  unfold parse_token. destruct (split_token token) as [flag value]. simpl.
  destruct (selected args flag) as [a|]; [|discriminate].
  destruct (mValue a) as [v|] eqn:Hv; [|discriminate].
  unfold store_value, visit_extract, bind.
  destruct v; destruct (Str.empty value) eqn:He; simpl;
    try destruct (Istream.extract_int value);
    try destruct (extract_float value);
    simpl; try discriminate;
    intros [= <- <-]; apply StrFacts.empty_iff in He;
    (split; [reflexivity | split; [reflexivity|]]);
    eexists _, _; (split; [reflexivity | split; [exact Hv | split; [congruence | exact He]]]).
Qed.

Lemma parse_tokens_thrown args tokens w w' e :
  parse_tokens args tokens w = (w', Thrown e) ->
  exists pre token post,
    tokens = pre ++ token :: post
    /\ parse_tokens args pre w = (w', Returned tt)
    /\ parse_token args token w' = (w', Thrown e).
Proof.
  revert w. induction tokens as [|t tokens IH]; intros w; simpl.
  - discriminate.
  - unfold bind. destruct (parse_token args t w) as [w1 [[]|e1]] eqn:Ht.
    + intros Hrest. destruct (IH _ Hrest) as (pre & token & post & -> & Hpre & Htok).
      exists (t :: pre), token, post. split; [reflexivity|]. split; [|exact Htok].
      simpl. unfold bind. rewrite Ht. exact Hpre.
    + intros [= <- <-]. exists [], t, tokens. split; [reflexivity|].
      destruct (parse_token_thrown _ _ _ _ _ Ht) as [-> _].
      split; [reflexivity | exact Ht].
Qed.

Lemma parse_tokens_snoc args pre token w w1 :
  parse_tokens args pre w = (w1, Returned tt) ->
  parse_tokens args (pre ++ [token]) w = parse_token args token w1.
Proof.
  intros Hpre. rewrite parse_tokens_app. unfold bind. rewrite Hpre. simpl.
  unfold bind. destruct (parse_token args token w1) as [w2 [[]|e]]; reflexivity.
Qed.

Lemma parse_tokens_middle args pre token post w w1 :
  parse_tokens args pre w = (w1, Returned tt) ->
  parse_tokens args (pre ++ token :: post) w
  = (parse_token args token ;;; parse_tokens args post) w1.
Proof.
  intros Hpre. rewrite parse_tokens_app. unfold bind at 1. rewrite Hpre.
  reflexivity.
Qed.

(** *** Aliases that contain the separator *)

Lemma has_flag_without_equals flag a :
  Str.contains "=" flag = false ->
  has_flag flag (without_equals_aliases a) = has_flag flag a.
Proof.
  intros Hc. unfold has_flag, without_equals_aliases. simpl.
  induction (mFlags a) as [|f fs IH]; simpl; [reflexivity|].
  destruct (Str.contains "=" f) eqn:Hf; simpl.
  - rewrite IH. destruct (String.eqb_spec flag f) as [->|_]; [congruence|reflexivity].
  - rewrite IH. reflexivity.
Qed.

Lemma selected_without_equals args flag :
  Str.contains "=" flag = false ->
  selected (map without_equals_aliases args) flag
  = without_equals_aliases <$> selected args flag.
Proof.
  intros Hc. unfold selected. induction args as [|a args IH]; simpl; [reflexivity|].
  rewrite (has_flag_without_equals _ _ Hc).
  destruct (has_flag flag a); [reflexivity | exact IH].
Qed.

Lemma parse_token_without_equals args token w :
  Str.representable token ->
  parse_token (map without_equals_aliases args) token w = parse_token args token w.
Proof.
  intros Hrep. pose proof (split_token_no_equals _ Hrep) as Hc.
  unfold parse_token. destruct (split_token token) as [flag value]. simpl in Hc.
  rewrite (selected_without_equals _ _ Hc).
  destruct (selected args flag) as [a|]; reflexivity.
Qed.

Lemma parse_tokens_without_equals args tokens w :
  Forall Str.representable tokens ->
  parse_tokens (map without_equals_aliases args) tokens w = parse_tokens args tokens w.
Proof.
  revert w. induction tokens as [|t tokens IH]; intros w Hall; [reflexivity|].
  inversion Hall; subst. simpl. unfold bind.
  rewrite parse_token_without_equals by assumption.
  destruct (parse_token args t w) as [w' [[]|e]]; [|reflexivity].
  apply IH. assumption.
Qed.

(** *** Integer extraction *)

Lemma extract_int_all_space s :
  Istream.all_space s = true -> Istream.extract_int s = None.
Proof.
  unfold Istream.all_space, Istream.extract_int.
  destruct (Istream.skipws s); [reflexivity | discriminate].
Qed.

Lemma digits_no_digit s :
  Istream.starts_with_digit s = false -> Istream.digits s 0 false = (0, false).
Proof.
  destruct s as [|c s]; simpl; [reflexivity|].
  destruct (Istream.digit c); [|reflexivity].
  rewrite bool_decide_eq_false. intros H. exfalso. apply H. eauto.
Qed.

Lemma extract_int_none_iff s :
  Istream.all_space s = true <-> Istream.extract_int s = None.
Proof.
  split; [apply extract_int_all_space|].
  unfold Istream.all_space, Istream.extract_int.
  destruct (Istream.skipws s) as [|c rest]; [reflexivity|].
  destruct (Ascii.eqb c "-"); [|destruct (Ascii.eqb c "+")];
    match goal with
    | |- context [Istream.digits ?b 0 false] =>
        destruct (Istream.digits b 0 false) as [n []]
    end; discriminate.
Qed.

Lemma digits_prefix s :
  forall acc seen,
    Istream.digits s acc seen
    = (fold_left (fun a d => 10 * a + d) (Numeral.digit_prefix s) acc,
       seen || Istream.starts_with_digit s).
Proof.
  induction s as [|c s IH]; intros acc seen; cbn [Istream.digits Numeral.digit_prefix].
  - simpl. rewrite orb_false_r. reflexivity.
  - unfold Istream.starts_with_digit.
    destruct (Istream.digit c) as [k|] eqn:Hk.
    + rewrite IH. cbn [fold_left]. f_equal.
      destruct seen; reflexivity.
    + destruct seen; reflexivity.
Qed.

Lemma extract_int_leading_number s :
  Istream.starts_number s = true ->
  Istream.extract_int s
  = Some (Z.max (- 2 ^ 31) (Z.min (Numeral.leading_number s) (2 ^ 31 - 1))).
Proof.
  unfold Istream.starts_number, Istream.extract_int, Numeral.leading_number,
    Numeral.decimal_value.
  destruct (Istream.skipws s) as [|c rest]; [discriminate|].
  destruct (Ascii.eqb c "-"); cbn [orb].
  - intros H. rewrite digits_prefix, H. reflexivity.
  - destruct (Ascii.eqb c "+"); cbn [orb]; intros H;
      rewrite digits_prefix, H; reflexivity.
Qed.

Lemma extract_int_no_number s :
  Istream.all_space s = false -> Istream.starts_number s = false ->
  Istream.extract_int s = Some 0.
Proof.
  unfold Istream.all_space, Istream.starts_number, Istream.extract_int.
  destruct (Istream.skipws s) as [|c rest]; [discriminate|]. intros _.
  destruct (Ascii.eqb c "-"); cbn [orb].
  - intros H. rewrite (digits_no_digit _ H). reflexivity.
  - destruct (Ascii.eqb c "+"); cbn [orb]; intros H;
      rewrite (digits_no_digit _ H); reflexivity.
Qed.

End ParseFacts.

(** ** What [parse] does *)

Section ParseTheorems.

Context {FP : FloatingPoint}.
Implicit Types (w : World) (args : list Argument) (tokens : list string).

(** C7: every turn of the loop consumes exactly one token.  The search
    never reports a separate value, the next index is always [i + 1], and
    the whole call is the left-to-right scan of [argv[1..]] in which each
    token's value comes from its own text after the first [=]. *)
Theorem parse_one_token_per_iteration d argv args i token flag value w :
  match (search args flag value false w).2 with
  | Returned (_, valueIsSeparate) => valueIsSeparate = false
  | Thrown _ => True
  end
  /\ parse_iteration args i token w = (parse_token args token ;;; ret (i + 1)) w
  /\ parse (command_line d argv args) w
     = Some (parse_tokens args (tail argv) w).
Proof.
  split; [|split].
  - rewrite search_selected.
    destruct (selected args flag) as [a|]; [|reflexivity].
    destruct (mValue a) as [v|]; [|reflexivity].
    unfold bind at 1. rewrite store_value_separate. unfold bind.
    destruct (store_value v flag value false w) as [w' [s|e]]; simpl; trivial.
  - apply parse_iteration_token.
  - apply parse_scan.
Qed.

(** C1: a token that selects a definition bound to a string or numeric
    destination and carries an empty value makes [parse] throw the
    missing-value error that quotes the flag; the call ends there, in the
    state reached before that token, whatever tokens follow. *)
Theorem parse_missing_value_throws d prog pre token post args flag a v w w1 :
  parse (command_line d (prog :: pre) args) w = Some (w1, Returned tt) ->
  split_token token = (flag, EmptyString) ->
  selected args flag = Some a -> mValue a = Some v ->
  (forall p, v <> VBool p) ->
  parse (command_line d (prog :: pre ++ token :: post) args) w
  = Some (w1, Thrown ("Failed to parse command line arguments: Missing value for argument "
                        +:+ Str.dquote +:+ flag +:+ Str.dquote +:+ "!")).
Proof.
  rewrite !parse_scan. simpl tail. intros [= Hpre] Hsplit Hsel Hval Hnb.
  f_equal. rewrite (parse_tokens_middle _ _ _ _ _ _ Hpre). unfold bind.
  rewrite (parse_token_split _ _ _ _ _ Hsplit), Hsel, Hval.
  unfold store_value, bind. destruct v; simpl; try reflexivity.
  exfalso. eapply Hnb. reflexivity.
Qed.

(** C2: a token that selects a definition bound to a boolean writes [true]
    when it carries no value, [false] when its value is exactly "false",
    and [true] for every other value; nothing else changes. *)
Theorem parse_bool_flag d prog pre token args flag value a p w w1 :
  parse (command_line d (prog :: pre) args) w = Some (w1, Returned tt) ->
  split_token token = (flag, value) ->
  selected args flag = Some a -> mValue a = Some (VBool p) ->
  exists b,
    parse (command_line d (prog :: pre ++ [token]) args) w
    = Some ({| bools := <[p := b]> (bools w1); ints := ints w1;
               floats := floats w1; strs := strs w1; cerr := cerr w1 |},
            Returned tt)
    /\ (value = EmptyString -> b = true)
    /\ (value = "false" -> b = false)
    /\ (value <> "false" -> b = true).
Proof.
  rewrite !parse_scan. simpl tail. intros [= Hpre] Hsplit Hsel Hval.
  exists (negb (String.eqb value "false")). split; [|split; [|split]].
  - f_equal. rewrite (parse_tokens_snoc _ _ _ _ _ Hpre).
    rewrite (parse_token_split _ _ _ _ _ Hsplit), Hsel, Hval. reflexivity.
  - intros ->. reflexivity.
  - intros ->. reflexivity.
  - intros Hne. apply String.eqb_neq in Hne. rewrite Hne. reflexivity.
Qed.

(** C6: for a definition bound to a string, the token [flag=value] is cut
    at its first [=] and everything after it, further [=] included, is
    stored as it stands. *)
Theorem parse_string_flag d prog pre args flag value a p w w1 :
  parse (command_line d (prog :: pre) args) w = Some (w1, Returned tt) ->
  Str.representable flag -> Str.contains "=" flag = false ->
  value <> EmptyString ->
  selected args flag = Some a -> mValue a = Some (VString p) ->
  split_token (flag +:+ "=" +:+ value) = (flag, value)
  /\ parse (command_line d (prog :: pre ++ [flag +:+ "=" +:+ value]) args) w
     = Some ({| bools := bools w1; ints := ints w1; floats := floats w1;
                strs := <[p := value]> (strs w1); cerr := cerr w1 |},
             Returned tt).
Proof.
  rewrite !parse_scan. simpl tail. intros [= Hpre] Hrep Hc Hne Hsel Hval.
  pose proof (split_token_attached flag value Hrep Hc) as Hsplit.
  split; [exact Hsplit|]. f_equal.
  rewrite (parse_tokens_snoc _ _ _ _ _ Hpre).
  rewrite (parse_token_split _ _ _ _ _ Hsplit), Hsel, Hval.
  unfold store_value, bind. apply StrFacts.empty_false_iff in Hne.
  rewrite Hne. reflexivity.
Qed.

(** C3, as the code has it: a non-empty value for a numeric destination
    never raises an error, and the destination receives what the stream
    extraction stores.  For an integer the extraction stores nothing exactly
    when the text is all white space; otherwise it stores zero when the text
    does not begin with a number, and the number it begins with, limited to
    the range of [int32_t], when it does. *)
Theorem parse_numeric_flag_extracts d prog pre token args flag value a v w w1 :
  parse (command_line d (prog :: pre) args) w = Some (w1, Returned tt) ->
  split_token token = (flag, value) -> value <> EmptyString ->
  selected args flag = Some a -> mValue a = Some v ->
  (forall p, v = VInt p ->
     parse (command_line d (prog :: pre ++ [token]) args) w
     = Some (match Istream.extract_int value with
             | Some z => {| bools := bools w1; ints := <[p := z]> (ints w1);
                            floats := floats w1; strs := strs w1;
                            cerr := cerr w1 |}
             | None => w1
             end, Returned tt))
  /\ (forall p, v = VFloat p ->
     parse (command_line d (prog :: pre ++ [token]) args) w
     = Some (match extract_float value with
             | Some x => {| bools := bools w1; ints := ints w1;
                            floats := <[p := x]> (floats w1); strs := strs w1;
                            cerr := cerr w1 |}
             | None => w1
             end, Returned tt))
  /\ (Istream.all_space value = false -> Istream.starts_number value = false ->
      Istream.extract_int value = Some 0)
  /\ (Istream.all_space value = true <-> Istream.extract_int value = None)
  /\ (Istream.starts_number value = true ->
      Istream.extract_int value
      = Some (Z.max (- 2 ^ 31)
                (Z.min (Numeral.leading_number value) (2 ^ 31 - 1)))).
Proof.
  rewrite !parse_scan. simpl tail. intros [= Hpre] Hsplit Hne Hsel Hval.
  apply StrFacts.empty_false_iff in Hne.
  rewrite (parse_tokens_snoc _ _ _ _ _ Hpre).
  rewrite (parse_token_split _ _ _ _ _ Hsplit), Hsel, Hval.
  split; [|split; [|split; [|split]]].
  - intros p ->. f_equal. unfold store_value, visit_extract, bind.
    rewrite Hne. destruct (Istream.extract_int value); reflexivity.
  - intros p ->. f_equal. unfold store_value, visit_extract, bind.
    rewrite Hne. destruct (extract_float value); reflexivity.
  - apply extract_int_no_number.
  - apply extract_int_none_iff.
  - apply extract_int_leading_number.
Qed.

(** C5: a token whose flag no definition lists only adds the warning that
    quotes it to the diagnostic stream; the scan goes on, and the call ends
    the same way and with the same destinations as without that token. *)
Theorem parse_unknown_token_skipped d prog pre token post args w w1 :
  (forall a, a ∈ args -> (split_token token).1 ∉ mFlags a) ->
  parse (command_line d (prog :: pre) args) w = Some (w1, Returned tt) ->
  parse (command_line d (prog :: pre ++ [token]) args) w
  = Some ({| bools := bools w1; ints := ints w1; floats := floats w1;
             strs := strs w1;
             cerr := cerr w1 +:+ ("Ignoring unknown command line argument "
                       +:+ Str.dquote +:+ (split_token token).1 +:+ Str.dquote
                       +:+ "." +:+ Str.endl) |}, Returned tt)
  /\ exists w' w'' r,
      parse (command_line d (prog :: pre ++ token :: post) args) w = Some (w', r)
      /\ parse (command_line d (prog :: pre ++ post) args) w = Some (w'', r)
      /\ same_destinations w' w''.
Proof.
  rewrite !parse_scan. simpl tail. intros Hnone [= Hpre].
  apply selected_None in Hnone.
  assert (Htok : forall w0, parse_token args token w0
                   = print_cerr (unknown_argument (split_token token).1) w0).
  { intros w0. rewrite (parse_token_split _ _ _ _ _ (surjective_pairing _)).
    rewrite Hnone. reflexivity. }
  split.
  - f_equal. rewrite (parse_tokens_snoc _ _ _ _ _ Hpre). rewrite Htok. reflexivity.
  - rewrite (parse_tokens_middle _ _ _ _ _ _ Hpre).
    rewrite parse_tokens_app. unfold bind. rewrite Hpre, Htok.
    unfold print_cerr.
    set (w2 := {| bools := bools w1; ints := ints w1; floats := floats w1;
                  strs := strs w1;
                  cerr := cerr w1 +:+ unknown_argument (split_token token).1 |}).
    assert (Hsame : same_destinations w2 w1) by (repeat split).
    destruct (parse_tokens_same args post w2 w1 Hsame) as [H1 H2].
    exists (parse_tokens args post w2).1, (parse_tokens args post w1).1,
           (parse_tokens args post w2).2.
    split; [|split; [|exact H1]].
    + f_equal. apply surjective_pairing.
    + f_equal. rewrite H2. apply surjective_pairing.
Qed.

(** C8: when [parse] ends with the missing-value error, the state it
    leaves is exactly the one reached by the tokens before the failing one:
    their writes stay, and neither the failing token nor a later one has
    written anything. *)
Theorem parse_abort_keeps_earlier_writes d prog tokens args w w' e :
  parse (command_line d (prog :: tokens) args) w = Some (w', Thrown e) ->
  exists pre token post,
    tokens = pre ++ token :: post
    /\ parse (command_line d (prog :: pre) args) w = Some (w', Returned tt)
    /\ parse_token args token w' = (w', Thrown e)
    /\ e = missing_value (split_token token).1.
Proof.
  rewrite parse_scan. simpl tail. intros [= Hthrown].
  destruct (parse_tokens_thrown _ _ _ _ _ Hthrown)
    as (pre & token & post & Heq & Hpre & Htok).
  exists pre, token, post. rewrite parse_scan. simpl tail.
  split; [exact Heq|]. split; [f_equal; exact Hpre|]. split; [exact Htok|].
  apply (parse_token_thrown _ _ _ _ _ Htok).
Qed.

(** C9, as the code has it: tokens are handled from left to right (the
    tokens before an occurrence first, then the occurrence, then the tokens
    after it), so after a call that returns, a destination holds the value
    decoded from an occurrence of the flag whenever that occurrence decodes
    to a value and no token after it selects a definition bound to the same
    destination, whatever earlier occurrences stored. *)
Theorem parse_last_occurrence_wins d prog pre token post args flag value a v c w w' :
  parse (command_line d (prog :: pre ++ token :: post) args) w
    = Some (w', Returned tt) ->
  split_token token = (flag, value) ->
  selected args flag = Some a -> mValue a = Some v ->
  decode v value = Some c ->
  Forall (fun t => target args t <> Some v) post ->
  content v w' = Some c
  /\ exists w1 w2,
      parse (command_line d (prog :: pre) args) w = Some (w1, Returned tt)
      /\ parse (command_line d [prog; token] args) w1 = Some (w2, Returned tt)
      /\ content v w2 = Some c
      /\ parse (command_line d (prog :: post) args) w2 = Some (w', Returned tt).
Proof.
  rewrite !parse_scan. simpl tail. intros [= Hrun] Hsplit Hsel Hval Hdec Hpost.
  rewrite parse_tokens_app in Hrun. unfold bind in Hrun.
  destruct (parse_tokens args pre w) as [w1 [[]|e1]] eqn:Hpre; [|discriminate].
  simpl in Hrun. unfold bind in Hrun.
  rewrite (parse_token_split _ _ _ _ _ Hsplit), Hsel, Hval in Hrun.
  destruct (store_value_decode v flag value c w1 Hdec) as (w2 & Hstore & Hload).
  rewrite Hstore in Hrun.
  pose proof (parse_tokens_load_other args post v w2 Hpost) as Hkeep.
  rewrite Hrun in Hkeep. simpl in Hkeep.
  split; [congruence|].
  exists w1, w2. split; [reflexivity|].
  rewrite !parse_scan. simpl tail. split.
  - f_equal. simpl. unfold bind.
    rewrite (parse_token_split _ _ _ _ _ Hsplit), Hsel, Hval, Hstore. reflexivity.
  - split; [exact Hload|]. f_equal. exact Hrun.
Qed.

(** C10: the flag compared with the registered aliases is the part of the
    token before its first [=], so it never contains [=]; aliases that do
    are dead: removing them from every definition changes nothing. *)
Theorem parse_equals_alias_unreachable d argv args w :
  Forall Str.representable argv ->
  Forall (fun token => Str.contains "=" (split_token token).1 = false) argv
  /\ parse (command_line d argv (map without_equals_aliases args)) w
     = parse (command_line d argv args) w.
Proof.
  intros Hall. split.
  - eapply Forall_impl; [exact Hall|]. intros t Ht.
    apply split_token_no_equals. exact Ht.
  - rewrite !parse_scan. f_equal. apply parse_tokens_without_equals.
    destruct argv; [constructor|]. inversion Hall; assumption.
Qed.

End ParseTheorems.

(** ** The help text *)

Module HelpFacts.
Import Str StrFacts HelpSpec.

(** *** The alias column *)

Lemma block_width_nonneg flags : 0 <= block_width flags.
Proof.
  induction flags as [|f flags IH]; simpl; [lia|].
  pose proof (size_nonneg f). lia.
Qed.

Lemma block_width_zero_or_two flags :
  block_width flags = 0 \/ 2 <= block_width flags.
Proof.
  destruct flags as [|f flags]; simpl; [left; reflexivity|right].
  pose proof (size_nonneg f). pose proof (block_width_nonneg flags). lia.
Qed.

Lemma column_width_nonneg args : 0 <= column_width args.
Proof. induction args as [|a args IH]; simpl; lia. Qed.

Lemma column_width_zero_or_two args :
  column_width args = 0 \/ 2 <= column_width args.
Proof.
  induction args as [|a args IH]; simpl; [left; reflexivity|].
  destruct (block_width_zero_or_two (mFlags a)); lia.
Qed.

Lemma column_width_bound b args :
  0 < b -> Forall (fun a => block_width (mFlags a) < b) args ->
  column_width args < b.
Proof.
  intros Hb. induction 1 as [|a args Ha _ IH]; simpl; lia.
Qed.

Lemma wrap32_small z : 0 <= z < 2 ^ 32 -> wrap32 z = z.
Proof. intros H. unfold wrap32. apply Z.mod_small. exact H. Qed.

Lemma wrap64_small z : 0 <= z < 2 ^ 64 -> wrap64 z = z.
Proof. intros H. unfold wrap64. apply Z.mod_small. exact H. Qed.

Lemma flagLength_fold flags acc :
  0 <= acc -> acc + block_width flags < 2 ^ 32 ->
  fold_left (fun acc flag => wrap32 (acc + wrap32 (wrap32 (size flag) + 2)))
    flags acc = acc + block_width flags.
Proof.
  revert acc. induction flags as [|f flags IH]; intros acc Hacc Hlt; simpl in *.
  - lia.
  - pose proof (size_nonneg f). pose proof (block_width_nonneg flags).
    rewrite (wrap32_small (size f)) by lia.
    rewrite (wrap32_small (size f + 2)) by lia.
    rewrite (wrap32_small (acc + (size f + 2))) by lia.
    rewrite IH by lia. lia.
Qed.

Lemma flagLength_block flags :
  block_width flags < 2 ^ 32 -> flagLength flags = block_width flags.
Proof. intros H. unfold flagLength. rewrite flagLength_fold; lia. Qed.

Lemma maxFlagLength_fold args acc :
  0 <= acc ->
  Forall (fun a => block_width (mFlags a) < 2 ^ 32) args ->
  fold_left (fun acc a => Z.max acc (flagLength (mFlags a))) args acc
  = Z.max acc (column_width args).
Proof.
  intros Hacc Hall. revert acc Hacc.
  induction Hall as [|a args Ha _ IH]; intros acc Hacc; simpl.
  - lia.
  - rewrite IH, (flagLength_block _ Ha) by lia. lia.
Qed.

Lemma maxFlagLength_column args :
  Forall (fun a => block_width (mFlags a) < 2 ^ 32) args ->
  maxFlagLength args = column_width args.
Proof.
  intros Hall. unfold maxFlagLength. rewrite maxFlagLength_fold by (lia || exact Hall).
  pose proof (column_width_nonneg args). lia.
Qed.

Lemma joined_flags_fold flags acc :
  fold_left (fun acc flag => acc +:+ (flag +:+ ", ")) flags acc
  = acc +:+ trailing flags.
Proof.
  revert acc. induction flags as [|f flags IH]; intros acc; simpl.
  - rewrite app_empty_r. reflexivity.
  - rewrite IH. rewrite !app_assoc. reflexivity.
Qed.

Lemma trailing_joined f flags :
  trailing (f :: flags) = joined (f :: flags) +:+ ", ".
Proof.
  revert f. induction flags as [|g flags IH]; intros f.
  - simpl. rewrite app_empty_r. reflexivity.
  - change (trailing (f :: g :: flags)) with (f +:+ ", " +:+ trailing (g :: flags)).
    rewrite IH. change (joined (f :: g :: flags))
      with (f +:+ ", " +:+ joined (g :: flags)).
    rewrite !app_assoc. reflexivity.
Qed.

Lemma size_trailing flags : size (trailing flags) = block_width flags.
Proof.
  induction flags as [|f flags IH]; simpl; [reflexivity|].
  rewrite !size_app, IH. change (size ", ") with 2. lia.
Qed.

Lemma take_empty n : take n EmptyString = EmptyString.
Proof. reflexivity. Qed.

Lemma flag_column_pad w flags :
  0 <= w < 2 ^ 31 -> block_width flags < 2 ^ 32 ->
  flag_column w flags = pad_right w (joined flags).
Proof.
  intros Hw Hb. unfold flag_column, pad_right, put_left, joined_flags.
  rewrite joined_flags_fold, app_empty_l.
  assert (Hint : to_int w = w).
  { unfold to_int. destruct (Z.ltb_spec w (2 ^ 31)); lia. }
  rewrite Hint. unfold substr. rewrite (drop_nonpos 0) by lia.
  destruct flags as [|f flags].
  - reflexivity.
  - pose proof (size_trailing (f :: flags)) as Hsz.
    rewrite trailing_joined in *. rewrite size_app in Hsz.
    change (size ", ") with 2 in Hsz.
    pose proof (size_nonneg (joined (f :: flags))).
    replace (size (joined (f :: flags) +:+ ", ") - 2)
      with (size (joined (f :: flags))) by (rewrite size_app; change (size ", ") with 2; lia).
    rewrite wrap64_small by lia.
    rewrite take_app_size. reflexivity.
Qed.

Lemma spaces_succ n : 0 < n -> spaces n = String " " (spaces (n - 1)).
Proof.
  intros Hn. unfold spaces.
  replace (Z.to_nat n) with (S (Z.to_nat (n - 1))) by lia. reflexivity.
Qed.

Lemma continuation_spaces w :
  2 <= w < 2 ^ 31 -> continuation w = spaces (w - 1).
Proof.
  intros Hw. unfold continuation, put_left.
  rewrite wrap32_small by lia.
  unfold to_int. destruct (Z.ltb_spec (w - 1) (2 ^ 31)); [|lia].
  rewrite (spaces_succ (w - 1)) by lia.
  change (size " ") with 1. reflexivity.
Qed.

(** *** Words *)

Lemma glue_cons c ws : exists w rest, glue c ws = w :: rest.
Proof. destruct ws; simpl; eauto. Qed.

Lemma pieces_cons s : exists w rest, pieces s = w :: rest.
Proof.
  destruct s as [|c s]; simpl; [eauto|].
  destruct (Ascii.eqb c " "); [eauto | apply glue_cons].
Qed.

Lemma words_cons s : exists w rest, words s = w :: rest.
Proof. destruct s as [|c s]; simpl; [eauto | apply glue_cons]. Qed.

Lemma length_glue c ws : (length (glue c ws) <= S (length ws))%nat.
Proof. destruct ws; simpl; lia. Qed.

Lemma length_glue_cons c w ws : length (glue c (w :: ws)) = length (w :: ws).
Proof. reflexivity. Qed.

Lemma length_pieces s : (length (pieces s) <= S (String.length s))%nat.
Proof.
  induction s as [|c s IH]; simpl; [lia|].
  destruct (pieces_cons s) as (w & rest & Hp). rewrite Hp in *.
  destruct (Ascii.eqb c " "); simpl in *; lia.
Qed.

Lemma length_words s : (length (words s) <= S (String.length s))%nat.
Proof.
  destruct s as [|c s]; simpl; [lia|].
  pose proof (length_pieces s). destruct (pieces_cons s) as (w & rest & Hp).
  rewrite Hp in *. simpl in *. lia.
Qed.

Lemma pieces_index s :
  match index_of " " s with
  | None => pieces s = [s]
  | Some k =>
      exists t, drop k s = String " " t
                /\ pieces s = take k s :: glue " " (pieces t)
  end.
Proof.
  induction s as [|c s IH]; [reflexivity|].
  cbn [index_of pieces]. destruct (Ascii.eqb_spec c " ") as [->|Hne].
  - exists s. rewrite drop_nonpos, take_nonpos by lia. split; reflexivity.
  - destruct (index_of " " s) as [k|] eqn:Hk.
    + destruct IH as (t & Hdrop & Hp). exists t.
      apply index_of_bounds in Hk.
      rewrite drop_String, take_String by lia.
      replace (k + 1 - 1) with k by lia. split; [exact Hdrop|].
      rewrite Hp. reflexivity.
    + rewrite IH. reflexivity.
Qed.

Lemma words_index r :
  match index_of " " (drop 1 r) with
  | None => words r = [r]
  | Some k =>
      exists t, drop (k + 1) r = String " " t
                /\ words r = take (k + 1) r :: words (String " " t)
  end.
Proof.
  destruct r as [|c r]; [reflexivity|].
  rewrite drop_String, drop_nonpos by lia.
  pose proof (pieces_index r) as Hp. cbn [words].
  destruct (index_of " " r) as [k|] eqn:Hk.
  - destruct Hp as (t & Hdrop & Hp). exists t. apply index_of_bounds in Hk.
    rewrite drop_String, take_String by lia.
    replace (k + 1 - 1) with k by lia. split; [exact Hdrop|].
    rewrite Hp. reflexivity.
  - rewrite Hp. reflexivity.
Qed.

(** *** The wrapping loop *)

Lemma help_loop_done fuel maxlen help lineWidth sstr os :
  help_loop fuel maxlen help npos lineWidth sstr os = Some os.
Proof. destruct fuel; reflexivity. Qed.

Lemma help_loop_words maxlen help :
  representable help ->
  forall n r p lineWidth sstr os fuel,
    length (words r) = n -> (n <= fuel)%nat ->
    0 <= p -> drop p help = r -> size help = p + size r ->
    0 <= lineWidth <= p ->
    help_loop fuel maxlen help p lineWidth sstr os
    = Some (os +:+ wrap (continuation maxlen) sstr lineWidth (words r)).
Proof.
  intros Hrep. unfold representable, max_size in Hrep.
  induction n as [|n IH]; intros r p L sstr os fuel Hlen Hfuel Hp Hdrop Hsize HL.
  - destruct (words_cons r) as (w & rest & Hw). rewrite Hw in Hlen. discriminate.
  - destruct fuel as [|fuel]; [lia|].
    pose proof (size_nonneg r) as Hr.
    cbn [help_loop].
    destruct (Z.eqb_spec p npos) as [E|_]; [unfold npos in E; lia|].
    rewrite (wrap64_small (p + 1)) by lia.
    unfold find. rewrite <- (drop_drop p 1) by lia. rewrite Hdrop.
    pose proof (words_index r) as Hw.
    destruct (index_of " " (drop 1 r)) as [k|] eqn:Hk.
    + destruct Hw as (t & Hnext & Hw).
      apply index_of_bounds in Hk.
      assert (Hk1 : k + 1 <= size r).
      { destruct r as [|c r']; [cbn in Hk; lia|].
        rewrite drop_String, drop_nonpos in Hk by lia. rewrite size_String. lia. }
      replace (p + 1 + k - p) with (k + 1) by lia.
      rewrite (wrap64_small (k + 1)) by lia.
      rewrite (wrap64_small (L + (k + 1))) by lia.
      unfold substr. rewrite Hdrop.
      rewrite Hw in *. cbn [wrap].
      rewrite (size_take (k + 1) r) by lia.
      destruct (words_cons (String " " t)) as (w2 & rest2 & Hw2).
      rewrite Hw2. rewrite <- Hw2.
      assert (Hstate : drop (p + 1 + k) help = String " " t).
      { replace (p + 1 + k) with (p + (k + 1)) by lia.
        rewrite <- (drop_drop p (k + 1)) by lia. rewrite Hdrop. exact Hnext. }
      assert (Hsz : size help = p + 1 + k + size (String " " t)).
      { rewrite <- Hnext. rewrite size_drop by lia. lia. }
      assert (Hlen' : length (words (String " " t)) = n)
        by (simpl in Hlen; cbn [words]; lia).
      destruct (Z.ltb_spec 60 (L + (k + 1))).
      * rewrite (IH (String " " t) (p + 1 + k) 0 _ _ fuel)
          by (assumption || lia).
        rewrite !app_assoc. reflexivity.
      * rewrite (IH (String " " t) (p + 1 + k) (L + (k + 1)) _ _ fuel)
          by (assumption || lia).
        reflexivity.
    + rewrite Hw. cbn [wrap].
      rewrite (wrap64_small (npos - p)) by (unfold npos; lia).
      rewrite (wrap64_small (L + (npos - p))) by (unfold npos; lia).
      destruct (Z.ltb_spec 60 (L + (npos - p))) as [_|Hle];
        [|unfold npos in Hle; lia].
      rewrite help_loop_done. unfold substr. rewrite Hdrop.
      rewrite take_all by (unfold npos; lia).
      rewrite !app_assoc. reflexivity.
Qed.

Lemma print_argument_lines w a os :
  2 <= w < 2 ^ 31 -> block_width (mFlags a) < 2 ^ 32 ->
  representable (mHelp a) ->
  print_argument (S (String.length (mHelp a))) w a os
  = Some (os +:+ argument_lines w a).
Proof.
  intros Hw Hb Hrep. unfold print_argument, argument_lines.
  rewrite (help_loop_words w (mHelp a) Hrep (length (words (mHelp a))) (mHelp a));
    try reflexivity; try lia.
  - rewrite flag_column_pad, continuation_spaces by lia. reflexivity.
  - apply length_words.
  - apply drop_nonpos. lia.
Qed.

Lemma print_arguments_lines w args os :
  2 <= w < 2 ^ 31 ->
  Forall (fun a => block_width (mFlags a) < 2 ^ 32) args ->
  Forall (fun a => representable (mHelp a)) args ->
  print_arguments w args os
  = Some (os +:+ String.concat EmptyString (map (argument_lines w) args)).
Proof.
  intros Hw Hb Hh. revert os.
  induction args as [|a args IH]; intros os.
  - simpl. rewrite app_empty_r. reflexivity.
  - inversion Hb; inversion Hh; subst. cbn [print_arguments].
    rewrite print_argument_lines by assumption. rewrite IH by assumption.
    f_equal. rewrite app_assoc. f_equal.
    destruct args; simpl; [rewrite app_empty_r|]; reflexivity.
Qed.

End HelpFacts.

(** C4: [printHelp] writes the description line and then the lines of each
    argument in turn: its aliases joined by a comma and a space, padded to the
    width of the widest alias block (each alias counting for its length plus
    two), then the help text, whose words are laid out greedily against a
    width of 60 with every continuation line starting with that width less
    one spaces. *)
Theorem printHelp_layout cl os :
  Forall (fun a => HelpSpec.block_width (mFlags a) < 2 ^ 31) (mArguments cl) ->
  Forall (fun a => Str.representable (mHelp a)) (mArguments cl) ->
  (mArguments cl <> [] -> 0 < HelpSpec.column_width (mArguments cl)) ->
  maxFlagLength (mArguments cl) = HelpSpec.column_width (mArguments cl)
  /\ printHelp cl os = Some (os +:+ HelpSpec.help_text cl).
Proof.
  intros Hb Hh Hw.
  assert (Hb32 : Forall (fun a => HelpSpec.block_width (mFlags a) < 2 ^ 32)
                   (mArguments cl)).
  { eapply Forall_impl; [exact Hb|]. simpl. intros a Ha. lia. }
  pose proof (HelpFacts.maxFlagLength_column _ Hb32) as Hmax.
  split; [exact Hmax|].
  unfold printHelp, HelpSpec.help_text. rewrite Hmax.
  destruct (mArguments cl) as [|a args] eqn:Hargs.
  - simpl. rewrite StrFacts.app_empty_r. reflexivity.
  - rewrite <- Hargs in *.
    assert (Hne : mArguments cl <> []) by congruence.
    specialize (Hw Hne).
    pose proof (HelpFacts.column_width_zero_or_two (mArguments cl)).
    pose proof (HelpFacts.column_width_bound (2 ^ 31) (mArguments cl) ltac:(lia) Hb).
    rewrite HelpFacts.print_arguments_lines by (assumption || lia).
    rewrite !StrFacts.app_assoc. reflexivity.
Qed.

(** ** Sample runs *)

Example split_token_samples :
  split_token "--name=a=b" = ("--name", "a=b")
  /\ split_token "-v" = ("-v", EmptyString)
  /\ split_token "--rate=" = ("--rate", EmptyString)
  /\ split_token "=x" = (EmptyString, "x").
Proof. repeat split; reflexivity. Qed.

Example extract_int_samples :
  Istream.extract_int "48000" = Some 48000
  /\ Istream.extract_int "  -12abc" = Some (-12)
  /\ Istream.extract_int "abc" = Some 0
  /\ Istream.extract_int "-" = Some 0
  /\ Istream.extract_int "99999999999" = Some 2147483647
  /\ Istream.extract_int "   " = None.
Proof. repeat split; reflexivity. Qed.

Example printHelp_sample :
  printHelp
    (command_line "Capture audio" ["capture"]
       [ mkArgument ["-v"; "--verbose"] None "Print more messages";
         mkArgument ["--rate"] None
           "Sample rate in Hz; the device must support it, otherwise the stream cannot be opened";
         mkArgument [] None EmptyString ])
    EmptyString
  = Some "Capture audio
-v, --verbose  Print more messages
--rate         Sample rate in Hz; the device must support it, otherwise the stream
               cannot be opened
               
".
Proof. vm_compute. reflexivity. Qed.

Lemma parse_missing_value_throws_witness :
  parse (command_line "capture" ("capture" :: ["-v"] ++ "--rate=" :: ["--name=mic"])
           sample_arguments) sample_world
  = Some ({| bools := {[ 1 := true ]}; ints := ints sample_world;
             floats := floats sample_world; strs := strs sample_world;
             cerr := EmptyString |},
          Thrown ("Failed to parse command line arguments: Missing value for argument "
                    +:+ Str.dquote +:+ "--rate" +:+ Str.dquote +:+ "!")).
Proof.
  refine (@parse_missing_value_throws symbolic_floats "capture" "capture" ["-v"]
           "--rate=" ["--name=mic"] sample_arguments "--rate"
           (mkArgument ["--rate"] (Some (VInt 2)) "Sample rate in Hz") (VInt 2)
           sample_world
           {| bools := {[ 1 := true ]}; ints := ints sample_world;
              floats := floats sample_world; strs := strs sample_world;
              cerr := EmptyString |} _ _ _ _ _).
  - vm_compute. reflexivity.
  - vm_compute. reflexivity.
  - vm_compute. reflexivity.
  - reflexivity.
  - intros p. discriminate.
Defined.

Lemma parse_bool_flag_witness :
  exists b,
    parse (command_line "capture" ("capture" :: ["--rate=48000"] ++ ["-v=xyz"])
             sample_arguments) sample_world
    = Some ({| bools := <[1 := b]> (bools sample_world); ints := {[ 2 := 48000 ]};
               floats := floats sample_world; strs := strs sample_world;
               cerr := EmptyString |}, Returned tt)
    /\ ("xyz" = EmptyString -> b = true)
    /\ ("xyz" = "false" -> b = false)
    /\ ("xyz" <> "false" -> b = true).
Proof.
  pose proof (@parse_bool_flag symbolic_floats "capture" "capture" ["--rate=48000"]
           "-v=xyz" sample_arguments "-v" "xyz"
           (mkArgument ["-v"; "--verbose"] (Some (VBool 1)) "Print more messages") 1
           sample_world
           {| bools := bools sample_world; ints := {[ 2 := 48000 ]};
              floats := floats sample_world; strs := strs sample_world;
              cerr := EmptyString |}) as H.
  apply H.
  - vm_compute. reflexivity.
  - vm_compute. reflexivity.
  - vm_compute. reflexivity.
  - reflexivity.
Defined.

Lemma parse_string_flag_witness :
  split_token ("--name" +:+ "=" +:+ "a=b=c") = ("--name", "a=b=c")
  /\ parse (command_line "capture" ("capture" :: ["-v"] ++ ["--name" +:+ "=" +:+ "a=b=c"])
              sample_arguments) sample_world
     = Some ({| bools := {[ 1 := true ]}; ints := ints sample_world;
                floats := floats sample_world;
                strs := <[4 := "a=b=c"]> (strs sample_world);
                cerr := EmptyString |}, Returned tt).
Proof.
  refine (@parse_string_flag symbolic_floats "capture" "capture" ["-v"]
           sample_arguments "--name" "a=b=c"
           (mkArgument ["--name"] (Some (VString 4)) "Name of the input device") 4
           sample_world
           {| bools := {[ 1 := true ]}; ints := ints sample_world;
              floats := floats sample_world; strs := strs sample_world;
              cerr := EmptyString |} _ _ _ _ _ _).
  - vm_compute. reflexivity.
  - vm_compute. discriminate.
  - vm_compute. reflexivity.
  - discriminate.
  - vm_compute. reflexivity.
  - reflexivity.
Defined.

(** C3 as stated fails: the text [abc] for the integer bound to [--rate]
    raises no error, but the destination, 44100 before the call, holds 0
    after it. *)
Lemma parse_malformed_int_overwrites :
  exists w',
    parse (command_line "capture" ["capture"; "--rate=abc"] sample_arguments)
      sample_world = Some (w', Returned tt)
    /\ ints sample_world !! 2 = Some 44100
    /\ ints w' !! 2 = Some 0
    /\ ints w' !! 2 <> ints sample_world !! 2.
Proof.
  eexists. split; [vm_compute; reflexivity|].
  split; [reflexivity|]. split; [reflexivity|]. vm_compute. discriminate.
Qed.

Lemma parse_numeric_flag_extracts_witness :
  parse (command_line "capture" ("capture" :: ["-v"] ++ ["--rate=12abc"])
           sample_arguments) sample_world
  = Some ({| bools := {[ 1 := true ]}; ints := <[2 := 12]> (ints sample_world);
             floats := floats sample_world; strs := strs sample_world;
             cerr := EmptyString |}, Returned tt)
  /\ Istream.extract_int "12abc"
     = Some (Z.max (- 2 ^ 31)
               (Z.min (Numeral.leading_number "12abc") (2 ^ 31 - 1)))
  /\ Numeral.leading_number "12abc" = 12
  /\ Numeral.leading_number "99999999999abc" = 99999999999
  /\ Istream.extract_int "99999999999abc" = Some 2147483647.
Proof.
  pose proof (@parse_numeric_flag_extracts symbolic_floats "capture" "capture"
           ["-v"] "--rate=12abc" sample_arguments "--rate" "12abc"
           (mkArgument ["--rate"] (Some (VInt 2)) "Sample rate in Hz") (VInt 2)
           sample_world
           {| bools := {[ 1 := true ]}; ints := ints sample_world;
              floats := floats sample_world; strs := strs sample_world;
              cerr := EmptyString |}) as H.
  destruct H as (Hint & _ & _ & _ & Hnumber).
  - vm_compute. reflexivity.
  - vm_compute. reflexivity.
  - discriminate.
  - vm_compute. reflexivity.
  - reflexivity.
  - split; [exact (Hint 2 eq_refl)|]. split; [apply Hnumber; reflexivity|].
    repeat split; reflexivity.
Defined.

Lemma parse_unknown_token_skipped_witness :
  parse (command_line "capture" ("capture" :: ["-v"] ++ ["--bogus=1"])
           sample_arguments) sample_world
  = Some ({| bools := {[ 1 := true ]}; ints := ints sample_world;
             floats := floats sample_world; strs := strs sample_world;
             cerr := "Ignoring unknown command line argument " +:+ Str.dquote
                       +:+ "--bogus" +:+ Str.dquote +:+ "." +:+ Str.endl |},
          Returned tt)
  /\ exists w' w'' r,
      parse (command_line "capture"
               ("capture" :: ["-v"] ++ "--bogus=1" :: ["--rate=48000"])
               sample_arguments) sample_world = Some (w', r)
      /\ parse (command_line "capture" ("capture" :: ["-v"] ++ ["--rate=48000"])
                  sample_arguments) sample_world = Some (w'', r)
      /\ same_destinations w' w''.
Proof.
  pose proof (@parse_unknown_token_skipped symbolic_floats "capture" "capture"
           ["-v"] "--bogus=1" ["--rate=48000"] sample_arguments sample_world
           {| bools := {[ 1 := true ]}; ints := ints sample_world;
              floats := floats sample_world; strs := strs sample_world;
              cerr := EmptyString |}) as H.
  apply H.
  - apply selected_None. vm_compute. reflexivity.
  - vm_compute. reflexivity.
Defined.

Lemma parse_abort_keeps_earlier_writes_witness :
  exists pre token post,
    ["-v"; "--rate=48000"; "--name="; "--rate=8000"] = pre ++ token :: post
    /\ parse (command_line "capture" ("capture" :: pre) sample_arguments)
         sample_world
       = Some ({| bools := {[ 1 := true ]}; ints := {[ 2 := 48000 ]};
                  floats := floats sample_world; strs := strs sample_world;
                  cerr := EmptyString |}, Returned tt)
    /\ parse_token sample_arguments token
         {| bools := {[ 1 := true ]}; ints := {[ 2 := 48000 ]};
            floats := floats sample_world; strs := strs sample_world;
            cerr := EmptyString |}
       = ({| bools := {[ 1 := true ]}; ints := {[ 2 := 48000 ]};
             floats := floats sample_world; strs := strs sample_world;
             cerr := EmptyString |}, Thrown (missing_value "--name"))
    /\ missing_value "--name" = missing_value (split_token token).1.
Proof.
  pose proof (@parse_abort_keeps_earlier_writes symbolic_floats "capture" "capture"
           ["-v"; "--rate=48000"; "--name="; "--rate=8000"] sample_arguments
           sample_world
           {| bools := {[ 1 := true ]}; ints := {[ 2 := 48000 ]};
              floats := floats sample_world; strs := strs sample_world;
              cerr := EmptyString |}
           (missing_value "--name")) as H.
  apply H. vm_compute. reflexivity.
Defined.

(** C9 as stated fails.  The alias [-v] occurs twice and its last
    occurrence decodes to [true], but [--verbose=false], another alias of the
    same definition, comes later and the destination ends [false].  And the
    last occurrence of [--rate] carries only a space: nothing is decoded from
    it and the destination keeps 48000, the value of the first occurrence. *)
Lemma parse_last_occurrence_overwritten :
  (exists w',
     parse (command_line "capture"
              ["capture"; "-v=false"; "-v"; "--verbose=false"] sample_arguments)
       sample_world = Some (w', Returned tt)
     /\ split_token "-v" = ("-v", EmptyString)
     /\ @decode symbolic_floats (VBool 1) EmptyString = Some (CBool true)
     /\ content (VBool 1) w' = Some (CBool false))
  /\ (exists w',
       parse (command_line "capture"
                ["capture"; "--rate=48000"; "--rate= "] sample_arguments)
         sample_world = Some (w', Returned tt)
       /\ split_token "--rate= " = ("--rate", " ")
       /\ @decode symbolic_floats (VInt 2) " " = None
       /\ content (VInt 2) w' = Some (CInt 48000)).
Proof.
  split; eexists; (split; [vm_compute; reflexivity|]); repeat split; reflexivity.
Qed.

Lemma parse_last_occurrence_wins_witness :
  content (VInt 2)
    {| bools := {[ 1 := true ]}; ints := {[ 2 := 8000 ]};
       floats := floats sample_world; strs := strs sample_world;
       cerr := EmptyString |} = Some (CInt 8000)
  /\ exists w1 w2,
      parse (command_line "capture"
               ("capture" :: ["--rate=48000"; "--rate=96000"]) sample_arguments)
        sample_world = Some (w1, Returned tt)
      /\ parse (command_line "capture" ["capture"; "--rate=8000"]
                  sample_arguments) w1 = Some (w2, Returned tt)
      /\ content (VInt 2) w2 = Some (CInt 8000)
      /\ parse (command_line "capture" ("capture" :: ["-v"]) sample_arguments) w2
         = Some ({| bools := {[ 1 := true ]}; ints := {[ 2 := 8000 ]};
                    floats := floats sample_world; strs := strs sample_world;
                    cerr := EmptyString |}, Returned tt).
Proof.
  pose proof (@parse_last_occurrence_wins symbolic_floats "capture" "capture"
           ["--rate=48000"; "--rate=96000"] "--rate=8000" ["-v"]
           sample_arguments "--rate" "8000"
           (mkArgument ["--rate"] (Some (VInt 2)) "Sample rate in Hz") (VInt 2)
           (CInt 8000) sample_world
           {| bools := {[ 1 := true ]}; ints := {[ 2 := 8000 ]};
              floats := floats sample_world; strs := strs sample_world;
              cerr := EmptyString |}) as H.
  apply H.
  - vm_compute. reflexivity.
  - vm_compute. reflexivity.
  - vm_compute. reflexivity.
  - reflexivity.
  - vm_compute. reflexivity.
  - repeat constructor. vm_compute. discriminate.
Defined.

Lemma parse_equals_alias_unreachable_witness :
  Forall (fun token => Str.contains "=" (split_token token).1 = false)
    ["capture"; "--out=a=b"; "--out=a"]
  /\ parse (command_line "capture" ["capture"; "--out=a=b"; "--out=a"]
              (map without_equals_aliases
                 [mkArgument ["--out=a"; "--out"] (Some (VString 4)) "Output"]))
       sample_world
     = parse (command_line "capture" ["capture"; "--out=a=b"; "--out=a"]
                [mkArgument ["--out=a"; "--out"] (Some (VString 4)) "Output"])
         sample_world.
Proof.
  apply (@parse_equals_alias_unreachable symbolic_floats).
  repeat constructor; vm_compute; discriminate.
Defined.

Lemma printHelp_layout_witness :
  maxFlagLength sample_arguments = 15
  /\ printHelp (command_line "Capture audio" ["capture"] sample_arguments)
       EmptyString
     = Some (EmptyString +:+ HelpSpec.help_text
               (command_line "Capture audio" ["capture"] sample_arguments)).
Proof.
  apply (printHelp_layout
           (command_line "Capture audio" ["capture"] sample_arguments) EmptyString).
  - repeat constructor; vm_compute; reflexivity.
  - repeat constructor; vm_compute; discriminate.
  - intros _. vm_compute. reflexivity.
Defined.

(** * Further properties *)

(** ** More about [parse] *)

Section ParseMore.

Context {FP : FloatingPoint}.
Implicit Types (w : World) (args : list Argument) (tokens : list string).

(** *** Duplicate aliases *)

Lemma has_flag_filter_seen seen flag a :
  existsb (String.eqb flag) seen = false ->
  has_flag flag
    {| mFlags := List.filter (fun f => negb (existsb (String.eqb f) seen)) (mFlags a);
       mValue := mValue a; mHelp := mHelp a |}
  = has_flag flag a.
Proof.
  intros Hseen. unfold has_flag. simpl.
  induction (mFlags a) as [|f fs IH]; simpl; [reflexivity|].
  destruct (existsb (String.eqb f) seen) eqn:Hf; simpl.
  - rewrite IH. destruct (String.eqb_spec flag f) as [->|_]; [congruence|reflexivity].
  - rewrite IH. reflexivity.
Qed.

Lemma selected_without_shadowed seen args flag :
  existsb (String.eqb flag) seen = false ->
  mValue <$> selected (without_shadowed seen args) flag
  = mValue <$> selected args flag.
Proof.
  revert seen. unfold selected.
  induction args as [|a args IH]; intros seen Hseen; simpl; [reflexivity|].
  rewrite (has_flag_filter_seen _ _ _ Hseen).
  destruct (has_flag flag a) eqn:Ha; [reflexivity|].
  apply IH. rewrite existsb_app, Hseen. exact Ha.
Qed.

Lemma parse_token_values args args' token w :
  (forall flag, mValue <$> selected args' flag = mValue <$> selected args flag) ->
  parse_token args' token w = parse_token args token w.
Proof.
  intros Hsel. unfold parse_token. destruct (split_token token) as [flag value].
  specialize (Hsel flag).
  destruct (selected args' flag) as [a'|], (selected args flag) as [a|];
    simpl in Hsel; try discriminate; [|reflexivity].
  injection Hsel as ->. reflexivity.
Qed.

Lemma parse_tokens_values args args' tokens w :
  (forall flag, mValue <$> selected args' flag = mValue <$> selected args flag) ->
  parse_tokens args' tokens w = parse_tokens args tokens w.
Proof.
  intros Hsel. revert w. induction tokens as [|t tokens IH]; intros w; [reflexivity|].
  simpl. unfold bind. rewrite (parse_token_values _ _ _ _ Hsel).
  destruct (parse_token args t w) as [w' [[]|e]]; [apply IH | reflexivity].
Qed.

(** X1: when several definitions list the same alias, the one registered
    first is the only one a token can reach: dropping from every definition
    the aliases that an earlier definition lists changes nothing. *)
Theorem parse_first_definition_wins d argv args w :
  parse (command_line d argv (without_shadowed [] args)) w
  = parse (command_line d argv args) w.
Proof.
  rewrite !parse_scan. f_equal. apply parse_tokens_values.
  intros flag. apply selected_without_shadowed. reflexivity.
Qed.

(** X2: a token that selects a definition without a bound value changes
    nothing: no destination is written, no warning is printed, and a value
    attached to the token is ignored. *)
Theorem parse_presence_only_flag d prog pre token args flag value a w w1 :
  parse (command_line d (prog :: pre) args) w = Some (w1, Returned tt) ->
  split_token token = (flag, value) ->
  selected args flag = Some a -> mValue a = None ->
  parse (command_line d (prog :: pre ++ [token]) args) w = Some (w1, Returned tt).
Proof.
  rewrite !parse_scan. simpl tail. intros [= Hpre] Hsplit Hsel Hval. f_equal.
  rewrite (parse_tokens_snoc _ _ _ _ _ Hpre).
  rewrite (parse_token_split _ _ _ _ _ Hsplit), Hsel, Hval. reflexivity.
Qed.

(** X3: a variable that no token of the command line is bound to keeps its
    content, whether the call returns or throws. *)
Theorem parse_writes_only_targets d prog tokens args v w w' r :
  parse (command_line d (prog :: tokens) args) w = Some (w', r) ->
  Forall (fun t => target args t <> Some v) tokens ->
  content v w' = content v w.
Proof.
  rewrite parse_scan. simpl tail. intros [= Hrun] Hall.
  rewrite <- (parse_tokens_load_other args tokens v w Hall), Hrun. reflexivity.
Qed.

(** *** When the call throws *)

Lemma parse_token_outcome args token w :
  (parse_token args token w).2
  = if lacks_value args token
    then Thrown (missing_value (split_token token).1)
    else Returned tt.
Proof.
  unfold parse_token, lacks_value, target.
  destruct (split_token token) as [flag value]. simpl.
  destruct (selected args flag) as [a|]; [|reflexivity].
  destruct (mValue a) as [v|]; [|reflexivity].
  unfold store_value, visit_extract, bind.
  destruct v; destruct (Str.empty value); simpl;
    try destruct (Istream.extract_int value);
    try destruct (extract_float value); reflexivity.
Qed.

Lemma parse_tokens_returns args tokens w :
  (exists w', parse_tokens args tokens w = (w', Returned tt))
  <-> Forall (fun t => lacks_value args t = false) tokens.
Proof.
  revert w. induction tokens as [|t tokens IH]; intros w.
  - split; [constructor | intros _; eexists; reflexivity].
  - simpl. unfold bind. pose proof (parse_token_outcome args t w) as Hout.
    destruct (parse_token args t w) as [w1 o]. simpl in Hout. subst o.
    destruct (lacks_value args t) eqn:Hl.
    + split; [intros [w' [=]] | intros H; inversion H; congruence].
    + rewrite IH. split; [intros H; constructor; assumption|].
      intros H; inversion H; assumption.
Qed.

(** X4: [parse] returns exactly when no token selects a definition bound to
    a string or a number while carrying an empty value; otherwise it throws.
    The store the call starts from plays no part in it. *)
Theorem parse_returns_iff d prog tokens args w :
  (exists w', parse (command_line d (prog :: tokens) args) w
              = Some (w', Returned tt))
  <-> Forall (fun t => lacks_value args t = false) tokens.
Proof.
  rewrite parse_scan. simpl tail. rewrite <- (parse_tokens_returns args tokens w).
  split; intros [w' H]; exists w'; congruence.
Qed.

(** *** The diagnostic stream *)

Lemma parse_token_cerr args token w w' :
  parse_token args token w = (w', Returned tt) ->
  cerr w' = cerr w +:+ (if unknown args token
                        then unknown_argument (split_token token).1
                        else EmptyString).
Proof.
  unfold parse_token, unknown. destruct (split_token token) as [flag value]. simpl.
  destruct (selected args flag) as [a|].
  - rewrite StrFacts.app_empty_r. destruct (mValue a) as [v|].
    + unfold store_value, visit_extract, bind.
      destruct v; destruct (Str.empty value); simpl;
        try destruct (Istream.extract_int value);
        try destruct (extract_float value); simpl;
        intros [= <-]; reflexivity.
    + intros [= <-]. reflexivity.
  - intros [= <-]. reflexivity.
Qed.

Lemma parse_tokens_cerr args tokens w w' :
  parse_tokens args tokens w = (w', Returned tt) ->
  cerr w' = cerr w +:+ warnings args tokens.
Proof.
  revert w. induction tokens as [|t tokens IH]; intros w; simpl.
  - intros [= <-]. rewrite StrFacts.app_empty_r. reflexivity.
  - unfold bind. destruct (parse_token args t w) as [w1 [[]|e]] eqn:Ht; [|discriminate].
    intros Hrest. rewrite (IH _ Hrest), (parse_token_cerr _ _ _ _ Ht).
    destruct (unknown args t).
    + rewrite StrFacts.app_assoc. reflexivity.
    + rewrite StrFacts.app_empty_r. reflexivity.
Qed.

(** X5: a call that returns has added to [std::cerr] one warning for each
    token whose flag no definition lists, in the order of the tokens, and
    nothing else. *)
Theorem parse_warns_once_per_unknown d prog tokens args w w' :
  parse (command_line d (prog :: tokens) args) w = Some (w', Returned tt) ->
  cerr w' = cerr w +:+ warnings args tokens.
Proof.
  rewrite parse_scan. simpl tail. intros [= Hrun].
  apply (parse_tokens_cerr _ _ _ _ Hrun).
Qed.

(** *** Successive calls *)

(** X6: parsing one command line equals parsing its front part and, when
    that returns, parsing the rest in the state it left; when the front part
    throws, the rest is not looked at. *)
Theorem parse_splits d prog prog' front rest args w :
  parse (command_line d (prog :: front ++ rest) args) w
  = match parse (command_line d (prog :: front) args) w with
    | Some (w1, Returned _) => parse (command_line d (prog' :: rest) args) w1
    | other => other
    end.
Proof.
  rewrite !parse_scan. simpl tail. rewrite parse_tokens_app. unfold bind.
  destruct (parse_tokens args front w) as [w1 [[]|e]]; [|reflexivity].
  rewrite parse_scan. reflexivity.
Qed.

(** *** Parsing twice *)

Lemma store_value_effect u v flag value sep :
  (forall w, content v (store_value u flag value sep w).1 = content v w)
  \/ (exists c, forall w, content v (store_value u flag value sep w).1 = Some c).
Proof.
  unfold store_value, visit_extract, bind.
  destruct u as [p|p|p|p]; destruct (Str.empty value); simpl;
    try destruct (Istream.extract_int value);
    try destruct (extract_float value); simpl;
    try (left; reflexivity);
    destruct v as [q|q|q|q]; simpl;
    try (left; reflexivity);
    (destruct (decide (p = q)) as [->|Hne];
     [right; eexists; intros w; rewrite lookup_insert_eq; reflexivity
     |left; intros w; rewrite lookup_insert_ne by exact Hne; reflexivity]).
Qed.

Lemma parse_token_effect args token v :
  (forall w, content v (parse_token args token w).1 = content v w)
  \/ (exists c, forall w, content v (parse_token args token w).1 = Some c).
Proof.
  unfold parse_token. destruct (split_token token) as [flag value].
  destruct (selected args flag) as [a|]; [|left; reflexivity].
  destruct (mValue a) as [u|]; [|left; reflexivity].
  destruct (store_value_effect u v flag value false) as [H|[c H]].
  - left. intros w. specialize (H w). unfold bind.
    destruct (store_value u flag value false w) as [w' [s|e]]; exact H.
  - right. exists c. intros w. specialize (H w). unfold bind.
    destruct (store_value u flag value false w) as [w' [s|e]]; exact H.
Qed.

Lemma parse_tokens_outcome args tokens w1 w2 :
  (parse_tokens args tokens w1).2 = (parse_tokens args tokens w2).2.
Proof.
  revert w1 w2. induction tokens as [|t tokens IH]; intros w1 w2; [reflexivity|].
  simpl. unfold bind.
  pose proof (parse_token_outcome args t w1) as H1.
  pose proof (parse_token_outcome args t w2) as H2.
  destruct (parse_token args t w1) as [w1' o1], (parse_token args t w2) as [w2' o2].
  simpl in *. subst o1 o2.
  destruct (lacks_value args t); [reflexivity | apply IH].
Qed.

Lemma parse_tokens_local args tokens v w1 w2 :
  content v w1 = content v w2 ->
  content v (parse_tokens args tokens w1).1 = content v (parse_tokens args tokens w2).1.
Proof.
  revert w1 w2. induction tokens as [|t tokens IH]; intros w1 w2 Heq; [exact Heq|].
  simpl. unfold bind.
  pose proof (parse_token_outcome args t w1) as H1.
  pose proof (parse_token_outcome args t w2) as H2.
  assert (Hstep : content v (parse_token args t w1).1
                  = content v (parse_token args t w2).1).
  { destruct (parse_token_effect args t v) as [H|[c H]].
    - rewrite !H. exact Heq.
    - rewrite !H. reflexivity. }
  destruct (parse_token args t w1) as [w1' o1], (parse_token args t w2) as [w2' o2].
  simpl in *. subst o1 o2.
  destruct (lacks_value args t); [exact Hstep | apply IH; exact Hstep].
Qed.

Lemma parse_tokens_again args tokens v w :
  content v (parse_tokens args tokens (parse_tokens args tokens w).1).1
  = content v (parse_tokens args tokens w).1.
Proof.
  revert w. induction tokens as [|t pre IH] using rev_ind; intros w; [reflexivity|].
  pose proof (parse_tokens_app args pre [t] w) as Hfirst.
  unfold bind in Hfirst.
  destruct (parse_tokens args pre w) as [wp [[]|e]] eqn:Hpre.
  - (* the front part returns *)
    assert (Hone : forall w0, parse_tokens args [t] w0
                     = ((parse_token args t w0).1, (parse_token args t w0).2)).
    { intros w0. simpl. unfold bind.
      destruct (parse_token args t w0) as [w0' [[]|e0]]; reflexivity. }
    rewrite Hone in Hfirst. rewrite Hfirst. cbn [fst].
    set (w1 := (parse_token args t wp).1).
    pose proof (parse_tokens_app args pre [t] w1) as Hsecond.
    unfold bind in Hsecond.
    pose proof (parse_tokens_outcome args pre w1 w) as Hout.
    rewrite Hpre in Hout. simpl in Hout.
    destruct (parse_tokens args pre w1) as [wq oq] eqn:Hq. simpl in Hout. subst oq.
    rewrite Hone in Hsecond. rewrite Hsecond. cbn [fst].
    destruct (parse_token_effect args t v) as [H|[c H]].
    + rewrite H. subst w1. rewrite H.
      replace wq with (parse_tokens args pre (parse_token args t wp).1).1
        by (rewrite Hq; reflexivity).
      rewrite (parse_tokens_local args pre v _ wp (H wp)).
      replace wp with (parse_tokens args pre w).1 at 1 2
        by (rewrite Hpre; reflexivity).
      apply IH.
    + subst w1. rewrite !H. reflexivity.
  - (* the front part throws *)
    rewrite Hfirst. cbn [fst].
    pose proof (parse_tokens_app args pre [t] wp) as Hsecond.
    unfold bind in Hsecond.
    pose proof (parse_tokens_outcome args pre wp w) as Hout.
    rewrite Hpre in Hout. simpl in Hout.
    destruct (parse_tokens args pre wp) as [wq oq] eqn:Hq. simpl in Hout. subst oq.
    rewrite Hsecond. cbn [fst].
    replace wq with (parse_tokens args pre wp).1 by (rewrite Hq; reflexivity).
    replace wp with (parse_tokens args pre w).1 by (rewrite Hpre; reflexivity).
    apply IH.
Qed.

Lemma same_destinations_content w1 w2 :
  (forall v, content v w1 = content v w2) -> same_destinations w1 w2.
Proof.
  intros H. unfold same_destinations. repeat split; apply map_eq; intros p.
  - specialize (H (VBool p)). simpl in H.
    destruct (bools w1 !! p), (bools w2 !! p); simpl in H; congruence.
  - specialize (H (VInt p)). simpl in H.
    destruct (ints w1 !! p), (ints w2 !! p); simpl in H; congruence.
  - specialize (H (VFloat p)). simpl in H.
    destruct (floats w1 !! p), (floats w2 !! p); simpl in H; congruence.
  - specialize (H (VString p)). simpl in H.
    destruct (strs w1 !! p), (strs w2 !! p); simpl in H; congruence.
Qed.

(** X7: parsing the same command line again, in the state the first call
    left, ends the same way and leaves every destination as the first call
    left it. *)
Theorem parse_twice d argv args w w1 r :
  parse (command_line d argv args) w = Some (w1, r) ->
  exists w2,
    parse (command_line d argv args) w1 = Some (w2, r)
    /\ same_destinations w1 w2.
Proof.
  rewrite !parse_scan. intros [= Hrun].
  exists (parse_tokens args (tail argv) w1).1. split.
  - f_equal. rewrite (surjective_pairing (parse_tokens args (tail argv) w1)).
    f_equal. rewrite (parse_tokens_outcome args (tail argv) w1 w), Hrun. reflexivity.
  - apply same_destinations_content. intros v.
    pose proof (parse_tokens_again args (tail argv) v w) as H.
    rewrite Hrun in H. simpl in H. symmetry. exact H.
Qed.

End ParseMore.

(** ** More about [printHelp] *)

Module HelpMore.
Import Str StrFacts HelpSpec HelpFacts.

(** The loop, for any column width. *)
Lemma print_arguments_wrap m args os :
  Forall (fun a => representable (mHelp a)) args ->
  print_arguments m args os
  = Some (os +:+ String.concat EmptyString
            (map (fun a => wrap (continuation m) (flag_column m (mFlags a)) 0
                             (words (mHelp a))) args)).
Proof.
  intros Hh. revert os. induction Hh as [|a args Ha _ IH]; intros os.
  - simpl. rewrite app_empty_r. reflexivity.
  - cbn [print_arguments]. unfold print_argument.
    rewrite (help_loop_words m (mHelp a) Ha (length (words (mHelp a))) (mHelp a));
      try reflexivity; try lia.
    + rewrite IH. f_equal. rewrite app_assoc. f_equal.
      destruct args; simpl; [rewrite app_empty_r|]; reflexivity.
    + apply length_words.
    + apply drop_nonpos. lia.
Qed.

Lemma concat_cons x l :
  String.concat EmptyString (x :: l) = x +:+ String.concat EmptyString l.
Proof. destruct l; simpl; [rewrite app_empty_r|]; reflexivity. Qed.

Lemma concat_app l1 l2 :
  String.concat EmptyString (l1 ++ l2)
  = String.concat EmptyString l1 +:+ String.concat EmptyString l2.
Proof.
  induction l1 as [|x l1 IH]; [simpl; rewrite app_empty_l; reflexivity|].
  change ((x :: l1) ++ l2) with (x :: (l1 ++ l2)).
  rewrite !concat_cons, IH, app_assoc. reflexivity.
Qed.

Lemma concat_glue c ws :
  String.concat EmptyString (glue c ws)
  = String c (String.concat EmptyString ws).
Proof.
  destruct ws as [|w ws]; [reflexivity|].
  cbn [glue]. rewrite !concat_cons. reflexivity.
Qed.

Lemma concat_pieces s : String.concat EmptyString (pieces s) = s.
Proof.
  induction s as [|c s IH]; [reflexivity|]. cbn [pieces].
  destruct (Ascii.eqb c " ").
  - rewrite concat_cons, app_empty_l, concat_glue, IH. reflexivity.
  - rewrite concat_glue, IH. reflexivity.
Qed.

Lemma concat_words s : String.concat EmptyString (words s) = s.
Proof.
  destruct s as [|c s]; [reflexivity|].
  cbn [words]. rewrite concat_glue, concat_pieces. reflexivity.
Qed.

Lemma words_no_space s : contains " " s = false -> words s = [s].
Proof.
  intros Hc. apply contains_false in Hc.
  pose proof (words_index s) as Hw.
  destruct s as [|c s]; [reflexivity|].
  rewrite drop_String, drop_nonpos in Hw by lia.
  cbn [index_of] in Hc. destruct (Ascii.eqb c " "); [discriminate|].
  destruct (index_of " " s); [discriminate | exact Hw].
Qed.

Lemma wrap_fits pad ws line width :
  ws <> [] -> 0 <= width ->
  width + size (String.concat EmptyString ws) <= 60 ->
  wrap pad line width ws = line +:+ String.concat EmptyString ws +:+ endl.
Proof.
  revert line width. induction ws as [|x ws IH]; intros line width Hne Hw Hfit;
    [congruence|].
  rewrite concat_cons in *. rewrite size_app in Hfit.
  pose proof (size_nonneg x). pose proof (size_nonneg (String.concat EmptyString ws)).
  cbn [wrap]. destruct ws as [|y ws].
  - simpl. rewrite app_empty_r, app_assoc. reflexivity.
  - destruct (Z.ltb_spec 60 (width + size x)); [lia|].
    rewrite IH by (congruence || lia). rewrite !app_assoc. reflexivity.
Qed.

Lemma wrap_one_line pad line help :
  size help <= 60 \/ contains " " help = false ->
  wrap pad line 0 (words help) = line +:+ help +:+ endl.
Proof.
  intros [Hshort|Hnone].
  - rewrite wrap_fits; rewrite ?concat_words; try lia; [reflexivity|].
    destruct (words_cons help) as (x & rest & ->). congruence.
  - rewrite (words_no_space _ Hnone). cbn [wrap]. apply app_assoc.
Qed.

End HelpMore.

(** X8: each argument whose help text has at most 60 characters, or has
    no space at all, takes exactly one line, whatever the other arguments
    are: between the text printed for the arguments before it and the text
    printed for the arguments after it stand the padded alias column, the
    help text as it stands and one line end. *)
Theorem printHelp_short_help_one_line cl os before a after :
  Forall (fun a => HelpSpec.block_width (mFlags a) < 2 ^ 31) (mArguments cl) ->
  Forall (fun a => Str.representable (mHelp a)) (mArguments cl) ->
  mArguments cl = before ++ a :: after ->
  Str.size (mHelp a) <= 60 \/ Str.contains " " (mHelp a) = false ->
  exists out_before out_after,
    print_arguments (maxFlagLength (mArguments cl)) before EmptyString
      = Some out_before
    /\ print_arguments (maxFlagLength (mArguments cl)) after EmptyString
       = Some out_after
    /\ printHelp cl os
       = Some (os +:+ mDescription cl +:+ Str.endl
                 +:+ out_before
                 +:+ (HelpSpec.pad_right (HelpSpec.column_width (mArguments cl))
                        (HelpSpec.joined (mFlags a))
                        +:+ mHelp a +:+ Str.endl)
                 +:+ out_after).
Proof.
  intros Hb Hh Hsplit Hone.
  assert (Hb32 : Forall (fun a => HelpSpec.block_width (mFlags a) < 2 ^ 32)
                   (mArguments cl)).
  { eapply Forall_impl; [exact Hb|]. simpl. intros x Hx. lia. }
  pose proof (HelpFacts.column_width_nonneg (mArguments cl)) as H0.
  pose proof (HelpFacts.column_width_bound (2 ^ 31) (mArguments cl) ltac:(lia) Hb)
    as H1.
  unfold printHelp. rewrite (HelpFacts.maxFlagLength_column _ Hb32).
  rewrite (HelpMore.print_arguments_wrap _ _ _ Hh).
  revert H0 H1. generalize (HelpSpec.column_width (mArguments cl)). intros m H0 H1.
  rewrite Hsplit in Hh, Hb, Hb32 |- *.
  apply Forall_app in Hh as [Hh1 Hh2]. apply Forall_cons in Hh2 as [Ha Hh2].
  apply Forall_app in Hb as [_ Hb]. apply Forall_cons in Hb as [Hba _].
  do 2 eexists. split; [apply (HelpMore.print_arguments_wrap _ _ _ Hh1)|].
  split; [apply (HelpMore.print_arguments_wrap _ _ _ Hh2)|].
  rewrite map_app, HelpMore.concat_app. cbn [map].
  rewrite HelpMore.concat_cons, HelpMore.wrap_one_line by assumption.
  rewrite HelpFacts.flag_column_pad by (assumption || lia).
  rewrite !StrFacts.app_empty_l, !StrFacts.app_assoc. reflexivity.
Qed.

(** X9: when no definition has any alias, the column is empty and a
    continuation line starts with a single space: the width [0 - 1] wraps
    around in [uint32_t] and reaches [std::setw] as [-1], which pads
    nothing. *)
Theorem printHelp_without_aliases cl os :
  Forall (fun a => mFlags a = []) (mArguments cl) ->
  Forall (fun a => Str.representable (mHelp a)) (mArguments cl) ->
  printHelp cl os
  = Some (os +:+ mDescription cl +:+ Str.endl
            +:+ String.concat EmptyString
                  (map (fun a => HelpSpec.wrap " " EmptyString 0
                                   (HelpSpec.words (mHelp a)))
                     (mArguments cl))).
Proof.
  intros Hf Hh. unfold printHelp.
  assert (Hmax : maxFlagLength (mArguments cl) = 0).
  { unfold maxFlagLength. clear Hh.
    induction Hf as [|a args Ha _ IH]; [reflexivity|].
    simpl. rewrite Ha. exact IH. }
  rewrite Hmax, (HelpMore.print_arguments_wrap _ _ _ Hh).
  rewrite !StrFacts.app_assoc. do 5 f_equal.
  clear Hmax Hh. induction Hf as [|a args Ha _ IH]; [reflexivity|].
  cbn [map]. rewrite Ha, IH. reflexivity.
Qed.

(** ** The capture program *)

Module CaptureFacts.
Import Capture.

Example stoi_samples :
  stoi "3" = Ok 3 /\ stoi " -12abc" = Ok (-12) /\ stoi "-l" = Raise invalid_argument
  /\ stoi "--device" = Raise invalid_argument
  /\ stoi "99999999999" = Raise out_of_range
  /\ stoi "2147483647" = Ok 2147483647.
Proof. repeat split; reflexivity. Qed.

Example main_arguments_samples :
  @main_arguments sample_platform ["capture"; "2048"; "1"; "48000"; "--device"; "3"]
  = Some (Scanned (@Build_Settings sample_platform 2048 1 "48000" (Some 3)))
  /\ @main_arguments sample_platform ["capture"; "--device"; "3"; "2048"; "1"]
     = Some (Scanned (@Build_Settings sample_platform 4096 2 "44100.0" (Some 3)))
  /\ @main_arguments sample_platform ["capture"; "--device"; "-l"]
     = Some (Uncaught invalid_argument)
  /\ @main_arguments sample_platform ["capture"; "7"; "-l"; "--device"]
     = Some Listing
  /\ @main_arguments sample_platform ["capture"; "--device"]
     = Some (Scanned defaults).
Proof. repeat split; reflexivity. Qed.

Example select_device_samples :
  @select_device sample_devices None 2
  = Some ("Using device index 3 (matched 'line') : Rear Line-In" +:+ Str.endl,
          false, Selected 3 {| name := Some "Rear Line-In"; maxInputChannels := 2 |} 2)
  /\ @select_device sample_devices (Some 2) 2
     = Some ("Device supports only 1 input channels, but requested 2. Reducing channels to 1."
               +:+ Str.endl,
             false, Selected 2 {| name := Some "Microphone"; maxInputChannels := 1 |} 1)
  /\ @select_device sample_devices (Some 7) 2
     = Some ("Invalid device index: 7" +:+ Str.endl, true, Exit 1)
  /\ @select_device sample_devices (Some 0) 2
     = Some ("Selected device has no input channels." +:+ Str.endl, true, Exit 1).
Proof. repeat split; vm_compute; reflexivity. Qed.

(** *** Lower case *)

Lemma tolower_idempotent c : tolower (tolower c) = tolower c.
Proof. destruct c as [[] [] [] [] [] [] [] []]; reflexivity. Qed.

Lemma size_to_lower s : Str.size (to_lower s) = Str.size s.
Proof.
  induction s as [|c s IH]; [reflexivity|].
  cbn [to_lower]. rewrite !StrFacts.size_String, IH. reflexivity.
Qed.

(** X10: [to_lower] keeps the length of the string and changes nothing
    when applied a second time. *)
Theorem to_lower_idempotent s :
  String.length (to_lower s) = String.length s
  /\ to_lower (to_lower s) = to_lower s.
Proof.
  induction s as [|c s [IHl IHi]]; [split; reflexivity|].
  cbn [to_lower String.length]. rewrite IHl, IHi, tolower_idempotent.
  split; reflexivity.
Qed.

(** *** Searching for a word *)

Lemma starts_with_app p q s :
  starts_with (p +:+ q) s = true -> starts_with p s = true.
Proof.
  revert s. induction p as [|a p IH]; intros s; [reflexivity|].
  rewrite StrFacts.app_String. destruct s as [|b s]; cbn [starts_with]; [discriminate|].
  intros H. apply andb_true_iff in H as [Hab Hrest].
  rewrite Hab. simpl. apply IH. exact Hrest.
Qed.

Lemma index_of_str_app p q s :
  is_Some (index_of_str (p +:+ q) s) -> is_Some (index_of_str p s).
Proof.
  induction s as [|b s IH]; cbn [index_of_str].
  - destruct (starts_with (p +:+ q) EmptyString) eqn:H; [|intros [? [=]]].
    rewrite (starts_with_app _ _ _ H). eauto.
  - destruct (starts_with (p +:+ q) (String b s)) eqn:H.
    + rewrite (starts_with_app _ _ _ H). eauto.
    + intros Hs. destruct (starts_with p (String b s)); [eauto|].
      destruct (index_of_str (p +:+ q) s); [|destruct Hs as [? [=]]].
      destruct IH as [k Hk]; [eauto|]. rewrite Hk. eauto.
Qed.

Lemma index_of_str_bounds pat s k :
  index_of_str pat s = Some k -> 0 <= k <= Str.size s.
Proof.
  revert k. induction s as [|b s IH]; intros k; cbn [index_of_str].
  - destruct (starts_with pat EmptyString); [|discriminate].
    intros [= <-]. rewrite StrFacts.size_empty. lia.
  - pose proof (StrFacts.size_nonneg s). rewrite StrFacts.size_String.
    destruct (starts_with pat (String b s)); [intros [= <-]; lia|].
    destruct (index_of_str pat s) as [k'|]; [|discriminate].
    intros [= <-]. specialize (IH k' eq_refl). lia.
Qed.

Lemma find_str_found s pat :
  Str.representable s ->
  negb (find_str s pat =? Str.npos) = true <-> is_Some (index_of_str pat s).
Proof.
  intros Hrep. unfold find_str, Str.representable, Str.max_size in *.
  destruct (index_of_str pat s) as [k|] eqn:Hk.
  - apply index_of_str_bounds in Hk.
    destruct (Z.eqb_spec k Str.npos) as [E|_]; [unfold Str.npos in E; lia|].
    split; eauto.
  - rewrite Z.eqb_refl. split; [discriminate | intros [? [=]]].
Qed.

(** *** [find_line_in_device] *)

Section DeviceFacts.

Context {PA : PortAudio}.

Lemma name_matches_words info :
  (forall n, name info = Some n -> Str.representable n) ->
  name_matches info = true
  <-> exists n, name info = Some n
        /\ (is_Some (index_of_str "line" (to_lower n))
            \/ is_Some (index_of_str "stereo mix" (to_lower n))).
Proof.
  intros Hrep. unfold name_matches.
  destruct (name info) as [n|] eqn:Hn.
  - assert (Hlow : Str.representable (to_lower n)).
    { unfold Str.representable. rewrite size_to_lower. apply (Hrep n eq_refl). }
    rewrite !orb_true_iff, !(find_str_found _ _ Hlow). split.
    + intros [[[H|H]|H]|H]; exists n; (split; [reflexivity|]).
      * left; exact H.
      * left. apply (index_of_str_app "line" " in"). exact H.
      * left. apply (index_of_str_app "line" "-in"). exact H.
      * right; exact H.
    + intros (n' & [= <-] & [H|H]); [left; left; left; exact H | right; exact H].
  - split; [vm_compute; discriminate | intros (n & [=] & _)].
Qed.

Lemma line_in_test i info :
  names_representable -> Pa_GetDeviceInfo i = Some info ->
  line_in i <-> name_matches info = true /\ 0 < maxInputChannels info.
Proof.
  intros Hrep Hinfo. rewrite name_matches_words by (intros n; apply (Hrep i info n Hinfo)).
  unfold line_in. split.
  - intros (info' & Hi & Hmax & Hname). rewrite Hinfo in Hi. injection Hi as <-.
    split; assumption.
  - intros [Hname Hmax]. exists info. split; [exact Hinfo|]. split; assumption.
Qed.

Lemma find_line_in_loop_least numDevices :
  names_representable ->
  forall fuel i,
    0 <= i -> numDevices - i <= Z.of_nat fuel ->
    (forall j, 0 <= j < i -> ~ line_in j) ->
    exists r,
      find_line_in_loop fuel numDevices i = Some r
      /\ match r with
         | Some k => 0 <= k < numDevices /\ line_in k
                     /\ forall j, 0 <= j < k -> ~ line_in j
         | None => forall j, 0 <= j < numDevices -> ~ line_in j
         end.
Proof.
  intros Hrep. induction fuel as [|fuel IH]; intros i Hi Hfuel Hbefore.
  - simpl. destruct (Z.ltb_spec i numDevices); [lia|].
    exists None. split; [reflexivity|]. intros j Hj. apply Hbefore. lia.
  - cbn [find_line_in_loop]. destruct (Z.ltb_spec i numDevices) as [Hlt|Hge].
    + assert (Hnext : ~ line_in i ->
                forall j, 0 <= j < i + 1 -> ~ line_in j).
      { intros Hno j Hj. destruct (Z.eq_dec j i) as [->|]; [exact Hno|].
        apply Hbefore. lia. }
      destruct (Pa_GetDeviceInfo i) as [info|] eqn:Hinfo.
      * pose proof (line_in_test i info Hrep Hinfo) as Htest.
        destruct (name_matches info) eqn:Hm.
        -- destruct (Z.ltb_spec 0 (maxInputChannels info)) as [Hmax|Hmax].
           ++ exists (Some i). split; [reflexivity|].
              split; [lia|]. split; [apply Htest; split; [reflexivity|exact Hmax]|].
              exact Hbefore.
           ++ apply IH; [lia | lia |]. apply Hnext. rewrite Htest. lia.
        -- apply IH; [lia | lia |]. apply Hnext. rewrite Htest.
           intros [[=] _].
      * apply IH; [lia | lia |]. apply Hnext.
        intros (info & Hi' & _). congruence.
    + exists None. split; [reflexivity|]. intros j Hj. apply Hbefore. lia.
Qed.


(** *** Device selection *)

Lemma find_line_in_device_result :
  names_representable ->
  exists r,
    find_line_in_device Pa_GetDeviceCount = Some r
    /\ match r with
       | Some k => 0 <= k < Pa_GetDeviceCount /\ line_in k
                   /\ forall j, 0 <= j < k -> ~ line_in j
       | None => forall j, 0 <= j < Pa_GetDeviceCount -> ~ line_in j
       end.
Proof.
  intros Hrep. unfold find_line_in_device.
  apply (find_line_in_loop_least _ Hrep); [lia | lia |].
  intros j Hj. lia.
Qed.

Lemma check_channels_cases log d ch info :
  Pa_GetDeviceInfo d = Some info ->
  exists log',
    (check_channels log d ch
     = Some (log', false,
             Selected d info (if maxInputChannels info <? ch
                              then maxInputChannels info else ch))
     /\ (ch <= maxInputChannels info \/ 0 < maxInputChannels info))
    \/ (check_channels log d ch = Some (log', true, Exit 1)
        /\ maxInputChannels info < ch /\ maxInputChannels info <= 0).
Proof.
  intros Hinfo. unfold check_channels, exit1. rewrite Hinfo.
  destruct (Z.ltb_spec (maxInputChannels info) ch) as [Hlt|Hge].
  - destruct (Z.leb_spec (maxInputChannels info) 0) as [Hle|Hgt].
    + eexists. right. split; [reflexivity | lia].
    + eexists. left. split; [reflexivity | lia].
  - eexists. left. split; [reflexivity | lia].
Qed.

(** X12: when the device selection goes on, it does so without having
    called [Pa_Terminate], with a device that has a description and with a
    channel count that is the requested one or, if the device has fewer, the
    positive number the device has.  An index given with [--device] is the
    device used; without one it is the lowest line-in device or, when there
    is none, the default input device. *)
Theorem select_device_selected explicit ch log t d info c :
  names_representable ->
  select_device explicit ch = Some (log, t, Selected d info c) ->
  t = false
  /\ Pa_GetDeviceInfo d = Some info
  /\ c <= maxInputChannels info
  /\ (c = ch \/ (c = maxInputChannels info /\ c < ch /\ 0 < c))
  /\ match explicit with
     | Some k => d = k /\ 0 <= k < Pa_GetDeviceCount /\ 0 < maxInputChannels info
     | None =>
         (line_in d /\ forall j, 0 <= j < d -> ~ line_in j)
         \/ ((forall j, 0 <= j < Pa_GetDeviceCount -> ~ line_in j)
             /\ d = Pa_GetDefaultInputDevice /\ d <> paNoDevice)
     end.
Proof.
  intros Hrep. unfold select_device, exit1.
  destruct (Z.ltb_spec Pa_GetDeviceCount 0) as [|Hcount]; [discriminate|].
  assert (Hcheck : forall log0 d0 info0,
            Pa_GetDeviceInfo d0 = Some info0 ->
            check_channels log0 d0 ch = Some (log, t, Selected d info c) ->
            t = false /\ d = d0 /\ info = info0
            /\ c <= maxInputChannels info
            /\ (c = ch \/ (c = maxInputChannels info /\ c < ch /\ 0 < c))).
  { intros log0 d0 info0 Hinfo Hrun.
    destruct (check_channels_cases log0 d0 ch info0 Hinfo)
      as (log' & [[Heq Hc]|[Heq _]]); rewrite Heq in Hrun; [|discriminate].
    injection Hrun as <- <- <- <- <-.
    destruct (Z.ltb_spec (maxInputChannels info0) ch); repeat split; lia. }
  destruct explicit as [k|].
  - destruct (Z.ltb_spec k 0); [discriminate|].
    destruct (Z.leb_spec Pa_GetDeviceCount k); [discriminate|]. simpl.
    destruct (Pa_GetDeviceInfo k) as [info0|] eqn:Hinfo; [|discriminate].
    destruct (Z.leb_spec (maxInputChannels info0) 0); [discriminate|].
    intros Hrun. destruct (Hcheck _ _ _ Hinfo Hrun) as (-> & -> & -> & Hc1 & Hc2).
    repeat split; try assumption; lia.
  - destruct (find_line_in_device_result Hrep) as (r & Hfind & Hr). rewrite Hfind.
    destruct r as [i|].
    + destruct Hr as (Hi & Hline & Hleast).
      unfold device_name. destruct (Pa_GetDeviceInfo i) as [info0|] eqn:Hinfo; [|discriminate].
      destruct (name info0); [|discriminate].
      intros Hrun. destruct (Hcheck _ _ _ Hinfo Hrun) as (-> & -> & -> & Hc1 & Hc2).
      repeat split; try assumption. left. split; assumption.
    + destruct (Z.eqb_spec Pa_GetDefaultInputDevice paNoDevice); [discriminate|].
      unfold device_name.
      destruct (Pa_GetDeviceInfo Pa_GetDefaultInputDevice) as [info0|] eqn:Hinfo;
        [|discriminate].
      destruct (name info0); [|discriminate].
      intros Hrun. destruct (Hcheck _ _ _ Hinfo Hrun) as (-> & -> & -> & Hc1 & Hc2).
      repeat split; try assumption. right. repeat split; assumption.
Qed.

Lemma check_channels_exit log0 d ch info log t code :
  Pa_GetDeviceInfo d = Some info ->
  check_channels log0 d ch = Some (log, t, Exit code) ->
  code = 1 /\ t = true
  /\ maxInputChannels info < ch /\ maxInputChannels info <= 0
  /\ log = (log0 +:+ "Device supports only "
             +:+ show_int (maxInputChannels info)
             +:+ " input channels, but requested " +:+ show_int ch
             +:+ ". Reducing channels to "
             +:+ show_int (maxInputChannels info) +:+ "." +:+ Str.endl)
            +:+ "No input channels available." +:+ Str.endl.
Proof.
  intros Hinfo. unfold check_channels, exit1. rewrite Hinfo.
  destruct (Z.ltb_spec (maxInputChannels info) ch) as [Hlt|Hge]; [|discriminate].
  destruct (Z.leb_spec (maxInputChannels info) 0) as [Hle|Hgt]; [|discriminate].
  intros [= <- <- <-]. repeat split; assumption.
Qed.

(** X13: the device selection is the choice of a device (lines 182-225)
    followed by the check of its channels (lines 227-243), and a device that
    was chosen always has a description, so the exit for a missing description
    after the choice (line 228) is never taken.  The selection makes [main]
    return only with code 1 and after [Pa_Terminate], and only in one of five
    ways, each with its own text on [std::cerr]: the device count is negative;
    the index given with [--device] is out of range; that index is in range
    but its device has no description or no input channel; there is neither a
    line-in device nor a default input device; or the default input device
    has no channel while some are requested. *)
Theorem select_device_exit explicit ch :
  names_representable ->
  select_device explicit ch
  = match choose_device explicit with
    | None => None
    | Some (log0, None) => Some (log0, true, Exit 1)
    | Some (log0, Some d) => check_channels log0 d ch
    end
  /\ (forall log0 d,
        choose_device explicit = Some (log0, Some d) ->
        is_Some (Pa_GetDeviceInfo d))
  /\ forall log t code,
       select_device explicit ch = Some (log, t, Exit code) ->
       code = 1 /\ t = true
       /\ ((Pa_GetDeviceCount < 0
            /\ log = "Pa_GetDeviceCount error: "
                       +:+ show_int Pa_GetDeviceCount +:+ Str.endl)
           \/ (exists k, explicit = Some k
                 /\ 0 <= Pa_GetDeviceCount
                 /\ (k < 0 \/ Pa_GetDeviceCount <= k)
                 /\ log = "Invalid device index: " +:+ show_int k +:+ Str.endl)
           \/ (exists k, explicit = Some k
                 /\ 0 <= k < Pa_GetDeviceCount
                 /\ (Pa_GetDeviceInfo k = None
                     \/ exists info, Pa_GetDeviceInfo k = Some info
                                     /\ maxInputChannels info <= 0)
                 /\ log = "Selected device has no input channels." +:+ Str.endl)
           \/ (explicit = None
               /\ 0 <= Pa_GetDeviceCount
               /\ (forall j, 0 <= j < Pa_GetDeviceCount -> ~ line_in j)
               /\ Pa_GetDefaultInputDevice = paNoDevice
               /\ log = "No default input device." +:+ Str.endl)
           \/ (explicit = None
               /\ 0 <= Pa_GetDeviceCount
               /\ (forall j, 0 <= j < Pa_GetDeviceCount -> ~ line_in j)
               /\ Pa_GetDefaultInputDevice <> paNoDevice
               /\ exists info n,
                   Pa_GetDeviceInfo Pa_GetDefaultInputDevice = Some info
                   /\ name info = Some n
                   /\ maxInputChannels info <= 0
                   /\ maxInputChannels info < ch
                   /\ log = (("Using default input device index "
                               +:+ show_int Pa_GetDefaultInputDevice
                               +:+ " : " +:+ n +:+ Str.endl)
                              +:+ "Device supports only "
                              +:+ show_int (maxInputChannels info)
                              +:+ " input channels, but requested "
                              +:+ show_int ch
                              +:+ ". Reducing channels to "
                              +:+ show_int (maxInputChannels info)
                              +:+ "." +:+ Str.endl)
                             +:+ "No input channels available." +:+ Str.endl)).
Proof.
  intros Hrep. split; [|split].
  - unfold select_device, choose_device, exit1.
    destruct (Pa_GetDeviceCount <? 0); [reflexivity|].
    destruct explicit as [k|].
    + destruct ((k <? 0) || (Pa_GetDeviceCount <=? k)); [reflexivity|].
      destruct (Pa_GetDeviceInfo k) as [info|]; [|reflexivity].
      destruct (maxInputChannels info <=? 0); reflexivity.
    + destruct (find_line_in_device Pa_GetDeviceCount) as [[d|]|]; [| |reflexivity].
      * destruct (device_name d); reflexivity.
      * destruct (Pa_GetDefaultInputDevice =? paNoDevice); [reflexivity|].
        destruct (device_name Pa_GetDefaultInputDevice); reflexivity.
  - intros log0 d. unfold choose_device.
    destruct (Pa_GetDeviceCount <? 0); [discriminate|].
    destruct explicit as [k|].
    + destruct ((k <? 0) || (Pa_GetDeviceCount <=? k)); [discriminate|].
      destruct (Pa_GetDeviceInfo k) as [info|] eqn:Hinfo; [|discriminate].
      destruct (maxInputChannels info <=? 0); [discriminate|].
      intros [= <- <-]. rewrite Hinfo. eauto.
    + destruct (find_line_in_device Pa_GetDeviceCount) as [[i|]|]; [| |discriminate].
      * unfold device_name.
        destruct (Pa_GetDeviceInfo i) as [info|] eqn:Hinfo; [|discriminate].
        destruct (name info); [|discriminate].
        intros [= <- <-]. rewrite Hinfo. eauto.
      * destruct (Pa_GetDefaultInputDevice =? paNoDevice); [discriminate|].
        unfold device_name.
        destruct (Pa_GetDeviceInfo Pa_GetDefaultInputDevice) as [info|] eqn:Hinfo;
          [|discriminate].
        destruct (name info); [|discriminate].
        intros [= <- <-]. rewrite Hinfo. eauto.
  - intros log t code. unfold select_device, exit1.
    destruct (Z.ltb_spec Pa_GetDeviceCount 0) as [Hneg|Hcount].
    { intros [= <- <- <-]. repeat split. left. split; [exact Hneg | reflexivity]. }
    destruct explicit as [k|].
    + destruct (Z.ltb_spec k 0) as [Hk|Hk].
      { intros [= <- <- <-]. repeat split. right. left. exists k.
        repeat split; [assumption | left; exact Hk]. }
      destruct (Z.leb_spec Pa_GetDeviceCount k) as [Hk'|Hk'].
      { intros [= <- <- <-]. repeat split. right. left. exists k.
        repeat split; [assumption | right; exact Hk']. }
      simpl. destruct (Pa_GetDeviceInfo k) as [info0|] eqn:Hinfo.
      * destruct (Z.leb_spec (maxInputChannels info0) 0) as [Hmax|Hmax].
        -- intros [= <- <- <-]. repeat split. right. right. left. exists k.
           repeat split; try assumption. right. exists info0. split; assumption.
        -- intros Hrun.
           destruct (check_channels_exit _ _ _ _ _ _ _ Hinfo Hrun)
             as (_ & _ & _ & Hle & _). lia.
      * intros [= <- <- <-]. repeat split. right. right. left. exists k.
        repeat split; try assumption. left. exact Hinfo.
    + destruct (find_line_in_device_result Hrep) as (r & Hfind & Hr). rewrite Hfind.
      destruct r as [i|].
      * destruct Hr as (Hi & Hline & Hleast).
        unfold device_name.
        destruct (Pa_GetDeviceInfo i) as [info0|] eqn:Hinfo; [|discriminate].
        destruct (name info0); [|discriminate].
        intros Hrun.
        destruct (check_channels_exit _ _ _ _ _ _ _ Hinfo Hrun)
          as (_ & _ & _ & Hle & _).
        destruct Hline as (info1 & Hinfo1 & Hmax & _).
        rewrite Hinfo in Hinfo1. injection Hinfo1 as <-. lia.
      * destruct (Z.eqb_spec Pa_GetDefaultInputDevice paNoDevice) as [Hno|Hdef].
        { intros [= <- <- <-]. repeat split. right. right. right. left.
          repeat split; assumption. }
        unfold device_name.
        destruct (Pa_GetDeviceInfo Pa_GetDefaultInputDevice) as [info0|] eqn:Hinfo;
          [|discriminate].
        destruct (name info0) as [n|] eqn:Hname; [|discriminate].
        intros Hrun.
        destruct (check_channels_exit _ _ _ _ _ _ _ Hinfo Hrun)
          as (-> & -> & Hlt & Hle & ->).
        repeat split. right. right. right. right.
        split; [reflexivity|]. split; [assumption|]. split; [exact Hr|].
        split; [assumption|]. exists info0, n. repeat split; assumption.
Qed.

(** X14: without [--device], a line-in device is always preferred to the
    default input device, and the selection then cannot fail: it continues
    with the lowest line-in device and at most as many channels as it has. *)
Theorem select_device_prefers_line_in ch i :
  names_representable ->
  0 <= i < Pa_GetDeviceCount -> line_in i ->
  (forall j, 0 <= j < i -> ~ line_in j) ->
  exists log info,
    Pa_GetDeviceInfo i = Some info
    /\ select_device None ch
       = Some (log, false, Selected i info (Z.min ch (maxInputChannels info))).
Proof.
  intros Hrep Hi Hline Hleast. unfold select_device.
  destruct (Z.ltb_spec Pa_GetDeviceCount 0); [lia|].
  destruct (find_line_in_device_result Hrep) as (r & Hfind & Hr). rewrite Hfind.
  destruct r as [k|]; [|exfalso; apply (Hr i Hi Hline)].
  destruct Hr as (Hk & Hlinek & Hleastk).
  assert (k = i) as ->.
  { destruct (Z.lt_trichotomy k i) as [Hlt|[->|Hgt]]; [|reflexivity|].
    - exfalso. apply (Hleast k); [lia | exact Hlinek].
    - exfalso. apply (Hleastk i); [lia | exact Hline]. }
  destruct Hline as (info & Hinfo & Hmax & n & Hname & _).
  unfold device_name. rewrite Hinfo, Hname.
  destruct (check_channels_cases
              ("Using device index " +:+ show_int i +:+ " (matched 'line') : "
                 +:+ n +:+ Str.endl) i ch info Hinfo)
    as (log' & [[Heq _]|[_ [_ Hle]]]); [|lia].
  exists log', info. split; [reflexivity|]. rewrite Heq. do 3 f_equal.
  destruct (Z.ltb_spec (maxInputChannels info) ch); lia.
Qed.

End DeviceFacts.

(** *** The command line of [main] *)

Section ArgumentFacts.

Context {PF : Platform}.

Lemma settings_eta (st : Settings) :
  {| framesPerBuffer := framesPerBuffer st; channels := channels st;
     sampleRate := sampleRate st;
     explicitDeviceIndex := explicitDeviceIndex st |} = st.
Proof. destruct st; reflexivity. Qed.

(** The loop over the options is the scan of the tokens; the branch for
    tokens that start with a digit never assigns, since [framesPerBuffer] and
    [channels] are not zero. *)
Lemma options_loop_scan argv fuel i st :
  framesPerBuffer st <> 0 -> channels st <> 0 ->
  0 <= i -> Z.of_nat (length argv) - i <= Z.of_nat fuel ->
  options_loop fuel (Z.of_nat (length argv)) argv i st
  = Some match scan_options (drop (Z.to_nat i) argv) (explicitDeviceIndex st) with
         | ListingAsked => Listing
         | DeviceIs d =>
             Scanned {| framesPerBuffer := framesPerBuffer st;
                        channels := channels st; sampleRate := sampleRate st;
                        explicitDeviceIndex := d |}
         | ConversionFailed e => Uncaught e
         end.
Proof.
  intros Hf Hc. revert i st Hf Hc.
  induction fuel as [|fuel IH]; intros i st Hf Hc Hi Hfuel.
  - simpl. destruct (Z.ltb_spec i (Z.of_nat (length argv))); [lia|].
    rewrite drop_ge by lia. simpl. rewrite settings_eta. reflexivity.
  - cbn [options_loop].
    destruct (Z.ltb_spec i (Z.of_nat (length argv))) as [Hlt|Hge];
      [|rewrite drop_ge by lia; simpl; rewrite settings_eta; reflexivity].
    destruct (lookup_lt_is_Some_2 argv (Z.to_nat i)) as [a Ha]; [lia|].
    rewrite Ha, (drop_S _ _ _ Ha). cbn [scan_options].
    assert (Hnext : Z.to_nat (i + 1) = S (Z.to_nat i)) by lia.
    destruct (String.eqb a "--list-devices" || String.eqb a "-l"); [reflexivity|].
    destruct (String.eqb_spec a "--device") as [->|Hdev].
    + destruct (Z.ltb_spec (i + 1) (Z.of_nat (length argv))) as [Hlt2|Hge2].
      * cbn [andb].
        destruct (lookup_lt_is_Some_2 argv (Z.to_nat (i + 1))) as [v Hv]; [lia|].
        rewrite Hv. rewrite Hnext in Hv. rewrite (drop_S _ _ _ Hv).
        destruct (stoi v) as [n|e]; [|reflexivity].
        rewrite IH by (simpl; assumption || lia). simpl.
        replace (Z.to_nat (i + 1 + 1)) with (S (S (Z.to_nat i))) by lia.
        reflexivity.
      * cbn [andb]. rewrite <- Hnext. rewrite (drop_ge argv (Z.to_nat (i + 1))) by lia.
        change ((2 <=? Str.size "--device") && Ascii.eqb (first_char "--device") "-"
                && Ascii.eqb (second_char "--device") "-") with true.
        cbv iota. rewrite IH by (assumption || lia).
        rewrite (drop_ge argv (Z.to_nat (i + 1))) by lia. reflexivity.
    + cbn [andb]. rewrite <- Hnext.
      assert (Hskip : options_loop fuel (Z.of_nat (length argv)) argv (i + 1) st
                = Some match scan_options (drop (Z.to_nat (i + 1)) argv)
                               (explicitDeviceIndex st) with
                       | ListingAsked => Listing
                       | DeviceIs d =>
                           Scanned {| framesPerBuffer := framesPerBuffer st;
                                      channels := channels st;
                                      sampleRate := sampleRate st;
                                      explicitDeviceIndex := d |}
                       | ConversionFailed e => Uncaught e
                       end) by (apply IH; assumption || lia).
      destruct ((2 <=? Str.size a) && Ascii.eqb (first_char a) "-"
                && Ascii.eqb (second_char a) "-"); [exact Hskip|].
      destruct (isdigit (first_char a)); [|exact Hskip].
      destruct (Z.eqb_spec (framesPerBuffer st) 0); [contradiction|].
      destruct (Z.eqb_spec (channels st) 0); [contradiction|]. exact Hskip.
Qed.

Lemma positional_leading prog tokens st :
  positional (Z.of_nat (length (prog :: tokens))) (prog :: tokens) st
  = Some (leading_numbers tokens st).
Proof.
  unfold positional, leading_numbers. cbv zeta.
  destruct tokens as [|a1 rest1]; [reflexivity|].
  destruct (Z.ltb_spec 1 (Z.of_nat (length (prog :: a1 :: rest1)))) as [_|H];
    [|simpl in H; lia].
  change ((prog :: a1 :: rest1) !! Z.to_nat 1) with (Some a1). cbv beta iota.
  destruct (isdigit (first_char a1)); [|reflexivity].
  destruct (stoul a1) as [frames|e]; [|reflexivity].
  destruct rest1 as [|a2 rest2].
  { destruct (Z.ltb_spec (1 + 1) (Z.of_nat (length [prog; a1]))) as [H|_];
      [simpl in H; lia | reflexivity]. }
  destruct (Z.ltb_spec (1 + 1) (Z.of_nat (length (prog :: a1 :: a2 :: rest2))))
    as [_|H]; [|simpl in H; lia].
  change ((prog :: a1 :: a2 :: rest2) !! Z.to_nat (1 + 1)) with (Some a2). cbv beta iota.
  destruct (isdigit (first_char a2)); [|reflexivity].
  destruct (stoi a2) as [count|e]; [|reflexivity].
  destruct rest2 as [|a3 rest3].
  { destruct (Z.ltb_spec (1 + 1 + 1) (Z.of_nat (length [prog; a1; a2]))) as [H|_];
      [simpl in H; lia | reflexivity]. }
  destruct (Z.ltb_spec (1 + 1 + 1)
              (Z.of_nat (length (prog :: a1 :: a2 :: a3 :: rest3)))) as [_|H];
    [|simpl in H; lia].
  change ((prog :: a1 :: a2 :: a3 :: rest3) !! Z.to_nat (1 + 1 + 1)) with (Some a3). cbv beta iota.
  destruct (isdigit (first_char a3) || Ascii.eqb (first_char a3) "."); [|reflexivity].
  destruct (stod a3); reflexivity.
Qed.

Lemma main_arguments_scan prog tokens :
  main_arguments (prog :: tokens)
  = Some match scan_options tokens None with
         | ListingAsked => Listing
         | ConversionFailed e => Uncaught e
         | DeviceIs d =>
             leading_numbers tokens
               {| framesPerBuffer := 4096; channels := 2;
                  sampleRate := rate_44100; explicitDeviceIndex := d |}
         end.
Proof.
  unfold main_arguments.
  rewrite options_loop_scan by (simpl; lia || discriminate).
  change (drop (Z.to_nat 1) (prog :: tokens)) with tokens.
  change (explicitDeviceIndex defaults) with (@None Z).
  destruct (scan_options tokens None); try reflexivity.
  apply positional_leading.
Qed.

(** X15: the handling of the command line in [main] always ends, and it is
    this scan: a listing flag reached by the scan wins; [--device] takes the
    next token as its number and an exception of that conversion ends the
    program; after the scan, the numbers are read from the front of the
    command line only.  The assignments in the loop for tokens that start with
    a digit never run. *)
Theorem main_arguments_refines prog tokens :
  main_arguments (prog :: tokens)
  = Some match scan_options tokens None with
         | ListingAsked => Listing
         | ConversionFailed e => Uncaught e
         | DeviceIs d =>
             leading_numbers tokens
               {| framesPerBuffer := 4096; channels := 2;
                  sampleRate := rate_44100; explicitDeviceIndex := d |}
         end.
Proof. exact (main_arguments_scan prog tokens). Qed.

Lemma leading_numbers_device tokens st st' :
  leading_numbers tokens st = Scanned st' ->
  explicitDeviceIndex st' = explicitDeviceIndex st.
Proof.
  unfold leading_numbers. destruct tokens as [|a1 [|a2 [|a3 rest]]];
    repeat match goal with
           | |- context [if ?b then _ else _] => destruct b
           | |- context [match stoul ?a with _ => _ end] => destruct (stoul a)
           | |- context [match stoi ?a with _ => _ end] => destruct (stoi a)
           | |- context [match stod ?a with _ => _ end] => destruct (stod a)
           end; intros [= <-]; reflexivity.
Qed.

(** X16: numbers are honoured only at the front of the command line: when
    the first argument does not start with a digit, the buffer size, the
    channel count and the sample rate keep their defaults, whatever numbers
    follow. *)
Theorem main_numbers_must_lead prog tokens st :
  main_arguments (prog :: tokens) = Some (Scanned st) ->
  (forall a, head tokens = Some a -> isdigit (first_char a) = false) ->
  framesPerBuffer st = 4096 /\ channels st = 2 /\ sampleRate st = rate_44100.
Proof.
  rewrite main_arguments_scan. intros [= Hrun] Hfirst.
  destruct (scan_options tokens None) as [|d|e]; try discriminate.
  destruct tokens as [|a1 rest].
  - injection Hrun as <-. repeat split.
  - unfold leading_numbers in Hrun. rewrite (Hfirst a1 eq_refl) in Hrun.
    injection Hrun as <-. repeat split.
Qed.

Lemma scan_options_listing pre l post d :
  listing_flag l = true -> "--device" ∉ pre ->
  scan_options (pre ++ l :: post) d = ListingAsked.
Proof.
  intros Hl. unfold listing_flag in Hl.
  induction pre as [|a pre IH]; intros Hno; simpl.
  - rewrite Hl. reflexivity.
  - destruct (String.eqb a "--list-devices" || String.eqb a "-l"); [reflexivity|].
    destruct (String.eqb_spec a "--device") as [->|_].
    + exfalso. apply Hno. left.
    + apply IH. intros Hin. apply Hno. right. exact Hin.
Qed.

(** X17: a listing flag ([-l] or [--list-devices]) wins over everything
    after it: when no [--device] stands before it, the listing branch is
    taken whatever follows, and numbers in front of it are not even
    converted. *)
Theorem main_listing_wins prog pre l post :
  listing_flag l = true -> "--device" ∉ pre ->
  main_arguments (prog :: pre ++ l :: post) = Some Listing.
Proof.
  intros Hl Hno. rewrite main_arguments_scan.
  rewrite (scan_options_listing _ _ _ _ Hl Hno). reflexivity.
Qed.

Lemma next_read_option n :
  forall pre d,
    (length pre <= n)%nat -> next_read pre = AsOption ->
    exists d', forall post, scan_options (pre ++ post) d = scan_options post d'.
Proof.
  induction n as [|n IH]; intros pre d Hlen.
  - destruct pre; [|simpl in Hlen; lia]. intros _. exists d. reflexivity.
  - destruct pre as [|a pre]; [intros _; exists d; reflexivity|].
    cbn [next_read]. unfold listing_flag.
    destruct (String.eqb a "--list-devices" || String.eqb a "-l") eqn:Hl;
      [discriminate|].
    destruct (String.eqb a "--device") eqn:Hd.
    + destruct pre as [|v pre]; [discriminate|].
      destruct (stoi v) as [k|e] eqn:Hv; [|discriminate].
      intros Hr. destruct (IH pre (Some k)) as (d' & Hd');
        [simpl in Hlen; lia | exact Hr |].
      exists d'. intros post. cbn [app scan_options]. rewrite Hl, Hd, Hv. apply Hd'.
    + intros Hr. destruct (IH pre d) as (d' & Hd');
        [simpl in Hlen; lia | exact Hr |].
      exists d'. intros post. cbn [app scan_options]. rewrite Hl, Hd. apply Hd'.
Qed.

Lemma next_read_value n :
  forall pre d,
    (length pre <= n)%nat -> next_read pre = AsValue ->
    forall v post,
      scan_options (pre ++ v :: post) d
      = match stoi v with
        | Ok k => scan_options post (Some k)
        | Raise e => ConversionFailed e
        end.
Proof.
  induction n as [|n IH]; intros pre d Hlen.
  - destruct pre; [|simpl in Hlen; lia]. discriminate.
  - destruct pre as [|a pre]; [discriminate|].
    cbn [next_read]. unfold listing_flag.
    destruct (String.eqb a "--list-devices" || String.eqb a "-l") eqn:Hl;
      [discriminate|].
    destruct (String.eqb a "--device") eqn:Hd.
    + destruct pre as [|x pre].
      * intros _ v post. cbn [app scan_options]. rewrite Hl, Hd. reflexivity.
      * destruct (stoi x) as [k|e] eqn:Hx; [|discriminate].
        intros Hr v post. cbn [app scan_options]. rewrite Hl, Hd, Hx.
        apply IH; [simpl in Hlen; lia | exact Hr].
    + intros Hr v post. cbn [app scan_options]. rewrite Hl, Hd.
      apply IH; [simpl in Hlen; lia | exact Hr].
Qed.

Lemma next_read_not_read n :
  forall pre d,
    (length pre <= n)%nat -> next_read pre = NotRead ->
    forall post, scan_options (pre ++ post) d = scan_options pre d.
Proof.
  induction n as [|n IH]; intros pre d Hlen.
  - destruct pre; [|simpl in Hlen; lia]. discriminate.
  - destruct pre as [|a pre]; [discriminate|].
    cbn [next_read]. unfold listing_flag.
    destruct (String.eqb a "--list-devices" || String.eqb a "-l") eqn:Hl.
    { intros _ post. cbn [app scan_options]. rewrite Hl. reflexivity. }
    destruct (String.eqb a "--device") eqn:Hd.
    + destruct pre as [|x pre]; [discriminate|].
      intros Hr post. cbn [app scan_options]. rewrite Hl, Hd.
      destruct (stoi x) as [k|e]; [|reflexivity].
      apply IH; [simpl in Hlen; lia | exact Hr].
    + intros Hr post. cbn [app scan_options]. rewrite Hl, Hd.
      apply IH; [simpl in Hlen; lia | exact Hr].
Qed.

(** X18: whenever the loop reads a [--device] as an option and a token
    follows it, that token is taken as the device number, never as an option:
    if it is not a number (as in [--device -l], also after an earlier
    [--device 3]) the conversion throws and the program ends with an uncaught
    exception. *)
Theorem main_device_value_not_number prog pre v post e :
  next_read pre = AsOption ->
  stoi v = Raise e ->
  main_arguments (prog :: pre ++ "--device" :: v :: post) = Some (Uncaught e).
Proof.
  intros Hpre Hv. rewrite main_arguments_scan.
  destruct (next_read_option (length pre) pre None (le_n _) Hpre) as (d' & Hd').
  rewrite Hd'. cbn [scan_options].
  change (String.eqb "--device" "--list-devices" || String.eqb "--device" "-l")
    with false.
  change (String.eqb "--device" "--device") with true. cbv iota.
  rewrite Hv. reflexivity.
Qed.

Lemma scan_options_no_device tokens d d' :
  "--device" ∉ tokens -> scan_options tokens d = DeviceIs d' -> d' = d.
Proof.
  induction tokens as [|a tokens IH]; intros Hno; simpl.
  - intros [= <-]. reflexivity.
  - destruct (String.eqb a "--list-devices" || String.eqb a "-l"); [discriminate|].
    destruct (String.eqb_spec a "--device") as [->|_].
    + exfalso. apply Hno. left.
    + apply IH. intros Hin. apply Hno. right. exact Hin.
Qed.

Lemma scan_options_last n :
  forall pre v post d0 d,
    (length pre <= n)%nat -> "--device" ∉ post ->
    scan_options (pre ++ "--device" :: v :: post) d0 = DeviceIs d ->
    exists k, stoi v = Ok k /\ d = Some k.
Proof.
  induction n as [|n IH]; intros pre v post d0 d Hlen Hno.
  - destruct pre; [|simpl in Hlen; lia]. simpl.
    destruct (stoi v) as [k|e]; [|discriminate].
    intros Hrest. exists k. split; [reflexivity|].
    apply (scan_options_no_device _ _ _ Hno Hrest).
  - destruct pre as [|a pre].
    + apply (IH [] v post d0 d); [simpl; lia | exact Hno].
    + cbn [app scan_options].
      destruct (String.eqb a "--list-devices" || String.eqb a "-l"); [discriminate|].
      destruct (String.eqb_spec a "--device") as [->|_].
      * destruct pre as [|x pre]; cbn [app].
        -- change (stoi "--device") with (@Raise Z invalid_argument). discriminate.
        -- destruct (stoi x); [|discriminate].
           apply IH; [simpl in Hlen; lia | exact Hno].
      * apply IH; [simpl in Hlen; lia | exact Hno].
Qed.

Lemma scan_options_device_last_only tokens d d' :
  "--device" ∉ removelast tokens -> scan_options tokens d = DeviceIs d' -> d' = d.
Proof.
  induction tokens as [|a tokens IH]; intros Hno; cbn [scan_options].
  - intros [= <-]. reflexivity.
  - destruct (String.eqb a "--list-devices" || String.eqb a "-l"); [discriminate|].
    destruct tokens as [|b tokens].
    + destruct (String.eqb a "--device"); cbn [scan_options];
        intros [= <-]; reflexivity.
    + change (removelast (a :: b :: tokens)) with (a :: removelast (b :: tokens))
        in Hno.
      destruct (String.eqb_spec a "--device") as [->|_].
      * exfalso. apply Hno. left.
      * apply IH. intros Hin. apply Hno. right. exact Hin.
Qed.

Lemma scan_options_last_with_value n :
  forall pre v post d0 d,
    (length pre <= n)%nat -> "--device" ∉ removelast post ->
    scan_options (pre ++ "--device" :: v :: post) d0 = DeviceIs d ->
    exists k, stoi v = Ok k /\ d = Some k.
Proof.
  induction n as [|n IH]; intros pre v post d0 d Hlen Hno.
  - destruct pre; [|simpl in Hlen; lia]. simpl.
    destruct (stoi v) as [k|e]; [|discriminate].
    intros Hrest. exists k. split; [reflexivity|].
    apply (scan_options_device_last_only _ _ _ Hno Hrest).
  - destruct pre as [|a pre].
    + apply (IH [] v post d0 d); [simpl; lia | exact Hno].
    + cbn [app scan_options].
      destruct (String.eqb a "--list-devices" || String.eqb a "-l"); [discriminate|].
      destruct (String.eqb_spec a "--device") as [->|_].
      * destruct pre as [|x pre]; cbn [app].
        -- change (stoi "--device") with (@Raise Z invalid_argument). discriminate.
        -- destruct (stoi x); [|discriminate].
           apply IH; [simpl in Hlen; lia | exact Hno].
      * apply IH; [simpl in Hlen; lia | exact Hno].
Qed.

(** X19: when the settings are complete, the device index is the number
    after the last [--device] that has a token after it; a further
    [--device] may only be the last argument, where it changes nothing. *)
Theorem main_last_device_wins prog pre v post st :
  main_arguments (prog :: pre ++ "--device" :: v :: post) = Some (Scanned st) ->
  "--device" ∉ removelast post ->
  exists k, stoi v = Ok k /\ explicitDeviceIndex st = Some k.
Proof.
  rewrite main_arguments_scan. intros [= Hrun] Hno.
  destruct (scan_options (pre ++ "--device" :: v :: post) None) as [|d|e] eqn:Hscan;
    try discriminate.
  destruct (scan_options_last_with_value (length pre) pre v post None d (le_n _)
              Hno Hscan) as (k & Hk & ->).
  exists k. split; [exact Hk|].
  apply leading_numbers_device in Hrun. exact Hrun.
Qed.

Lemma leading_numbers_trailing tokens st :
  leading_numbers (tokens ++ ["--device"]) st = leading_numbers tokens st.
Proof.
  unfold leading_numbers.
  destruct tokens as [|a1 [|a2 [|a3 rest]]]; reflexivity.
Qed.

(** X20: a [--device] that is the last argument and that the loop reads as
    an option, or does not read at all, is ignored without any message: the
    result is the one of the command line without it.  When the loop reads it
    as the value of a [--device] before it, its conversion throws
    [std::invalid_argument] and nothing catches it. *)
Theorem main_trailing_device_ignored prog tokens :
  (next_read tokens <> AsValue ->
   main_arguments (prog :: tokens ++ ["--device"])
   = main_arguments (prog :: tokens))
  /\ (next_read tokens = AsValue ->
      main_arguments (prog :: tokens ++ ["--device"])
      = Some (Uncaught invalid_argument)).
Proof.
  rewrite !main_arguments_scan. split.
  - intros Hread. destruct (next_read tokens) eqn:Hr; [| |congruence].
    + rewrite (next_read_not_read (length tokens) tokens None (le_n _) Hr).
      destruct (scan_options tokens None); try reflexivity.
      rewrite leading_numbers_trailing. reflexivity.
    + destruct (next_read_option (length tokens) tokens None (le_n _) Hr)
        as (d' & Hd').
      rewrite Hd'. pose proof (Hd' []) as Hnil. rewrite app_nil_r in Hnil.
      rewrite Hnil. cbn [scan_options].
      change (String.eqb "--device" "--list-devices" || String.eqb "--device" "-l")
        with false.
      change (String.eqb "--device" "--device") with true. cbv iota.
      rewrite leading_numbers_trailing. reflexivity.
  - intros Hr.
    rewrite (next_read_value (length tokens) tokens None (le_n _) Hr).
    change (stoi "--device") with (@Raise Z invalid_argument). reflexivity.
Qed.

End ArgumentFacts.

End CaptureFacts.

(** ** Numbers written in decimal are read back *)

Module DecimalText.

Lemma digits_of_uint_acc d :
  forall p seen,
    Istream.digits (NilEmpty.string_of_uint d) (Z.pos p) seen
    = (Z.pos (Pos.of_uint_acc d p),
       match d with Decimal.Nil => seen | _ => true end).
Proof.
  induction d; intros p seen; [reflexivity|..];
    cbn [NilEmpty.string_of_uint Istream.digits Pos.of_uint_acc];
    match goal with
    | |- context [Istream.digit ?c] =>
        let v := eval vm_compute in (Istream.digit c) in
        change (Istream.digit c) with v
    end; cbv iota;
    match goal with
    | |- Istream.digits _ ?acc _ = (Z.pos (Pos.of_uint_acc _ ?q), _) =>
        replace acc with (Z.pos q) by lia
    end;
    rewrite IHd; destruct d; reflexivity.
Qed.

Lemma digits_of_uint d :
  forall seen,
    Istream.digits (NilEmpty.string_of_uint d) 0 seen
    = (Z.of_N (Pos.of_uint d),
       match d with Decimal.Nil => seen | _ => true end).
Proof.
  induction d; intros seen; [reflexivity|..];
    cbn [NilEmpty.string_of_uint Istream.digits Pos.of_uint];
    match goal with
    | |- context [Istream.digit ?c] =>
        let v := eval vm_compute in (Istream.digit c) in
        change (Istream.digit c) with v
    end; cbv iota.
  - change (10 * 0 + 0) with 0. rewrite IHd. destruct d; reflexivity.
  - change (10 * 0 + 1) with (Z.pos 1). rewrite digits_of_uint_acc. destruct d; reflexivity.
  - change (10 * 0 + 2) with (Z.pos 2). rewrite digits_of_uint_acc. destruct d; reflexivity.
  - change (10 * 0 + 3) with (Z.pos 3). rewrite digits_of_uint_acc. destruct d; reflexivity.
  - change (10 * 0 + 4) with (Z.pos 4). rewrite digits_of_uint_acc. destruct d; reflexivity.
  - change (10 * 0 + 5) with (Z.pos 5). rewrite digits_of_uint_acc. destruct d; reflexivity.
  - change (10 * 0 + 6) with (Z.pos 6). rewrite digits_of_uint_acc. destruct d; reflexivity.
  - change (10 * 0 + 7) with (Z.pos 7). rewrite digits_of_uint_acc. destruct d; reflexivity.
  - change (10 * 0 + 8) with (Z.pos 8). rewrite digits_of_uint_acc. destruct d; reflexivity.
  - change (10 * 0 + 9) with (Z.pos 9). rewrite digits_of_uint_acc. destruct d; reflexivity.
Qed.

Lemma digits_of_pos p :
  Istream.digits (NilEmpty.string_of_uint (Pos.to_uint p)) 0 false = (Z.pos p, true).
Proof.
  rewrite digits_of_uint, DecimalPos.Unsigned.of_to.
  pose proof (DecimalPos.Unsigned.to_uint_nonnil p).
  destruct (Pos.to_uint p); [congruence|..]; reflexivity.
Qed.

(** The text of a positive number starts with a digit: no white space, no
    sign. *)
Lemma string_of_pos_head p :
  exists c rest,
    NilEmpty.string_of_uint (Pos.to_uint p) = String c rest
    /\ Istream.isspace c = false
    /\ Ascii.eqb c "-" = false /\ Ascii.eqb c "+" = false.
Proof.
  pose proof (DecimalPos.Unsigned.to_uint_nonnil p).
  destruct (Pos.to_uint p); [congruence|..];
    cbn [NilEmpty.string_of_uint]; eexists _, _; repeat split.
Qed.

Lemma show_int_pos p :
  Capture.show_int (Z.pos p) = NilEmpty.string_of_uint (Pos.to_uint p).
Proof.
  unfold Capture.show_int. cbn [Z.to_int NilZero.string_of_int].
  unfold NilZero.string_of_uint.
  pose proof (DecimalPos.Unsigned.to_uint_nonnil p).
  destruct (Pos.to_uint p); [congruence|..]; reflexivity.
Qed.

Lemma show_int_neg p :
  Capture.show_int (Z.neg p)
  = String "-" (NilEmpty.string_of_uint (Pos.to_uint p)).
Proof.
  unfold Capture.show_int. cbn [Z.to_int NilZero.string_of_int].
  unfold NilZero.string_of_uint.
  pose proof (DecimalPos.Unsigned.to_uint_nonnil p).
  destruct (Pos.to_uint p); [congruence|..]; reflexivity.
Qed.

Lemma read_integer_show z :
  Capture.read_integer (Capture.show_int z) = Some (z <? 0, Z.abs z).
Proof.
  destruct z as [|p|p].
  - reflexivity.
  - rewrite show_int_pos. unfold Capture.read_integer.
    destruct (string_of_pos_head p) as (c & rest & Hs & Hsp & Hm & Hp).
    rewrite Hs. cbn [Istream.skipws]. rewrite Hsp, Hm, Hp. rewrite <- Hs.
    rewrite digits_of_pos. reflexivity.
  - rewrite show_int_neg. unfold Capture.read_integer.
    change (Istream.skipws (String "-" ?s)) with (String "-" s).
    cbn [Istream.skipws].
    change (Istream.isspace "-") with false. cbv iota.
    change (Ascii.eqb "-" "-") with true. cbv iota.
    rewrite digits_of_pos. reflexivity.
Qed.

Lemma extract_int_read s :
  Istream.extract_int s
  = match Istream.skipws s with
    | EmptyString => None
    | String _ _ =>
        match Capture.read_integer s with
        | Some (negative, n) =>
            Some (Istream.clamp32 (if negative then - n else n))
        | None => Some 0
        end
    end.
Proof.
  unfold Istream.extract_int, Capture.read_integer.
  destruct (Istream.skipws s) as [|c rest]; [reflexivity|].
  destruct (Ascii.eqb c "-"); [|destruct (Ascii.eqb c "+")];
    match goal with
    | |- context [Istream.digits ?b 0 false] =>
        destruct (Istream.digits b 0 false) as [n []]
    end; reflexivity.
Qed.

Lemma skipws_show z :
  exists c rest, Istream.skipws (Capture.show_int z) = String c rest.
Proof.
  destruct z as [|p|p].
  - eexists _, _. reflexivity.
  - rewrite show_int_pos.
    destruct (string_of_pos_head p) as (c & rest & Hs & Hsp & _).
    rewrite Hs. cbn [Istream.skipws]. rewrite Hsp. eauto.
  - rewrite show_int_neg. eexists _, _. reflexivity.
Qed.

Lemma extract_int_show z :
  - 2 ^ 31 <= z <= 2 ^ 31 - 1 ->
  Istream.extract_int (Capture.show_int z) = Some z.
Proof.
  intros Hz. rewrite extract_int_read.
  destruct (skipws_show z) as (c & rest & ->).
  rewrite read_integer_show. f_equal. unfold Istream.clamp32.
  destruct (Z.ltb_spec z 0); lia.
Qed.

Lemma stoi_show z :
  - 2 ^ 31 <= z <= 2 ^ 31 - 1 -> Capture.stoi (Capture.show_int z) = Capture.Ok z.
Proof.
  intros Hz. unfold Capture.stoi. rewrite read_integer_show.
  assert (Hv : (if z <? 0 then - Z.abs z else Z.abs z) = z)
    by (destruct (Z.ltb_spec z 0); lia).
  rewrite Hv.
  destruct (Z.ltb_spec z (- 2 ^ 31)); [lia|].
  destruct (Z.ltb_spec (2 ^ 31 - 1) z); [lia|]. reflexivity.
Qed.

Lemma show_int_not_empty z : Capture.show_int z <> EmptyString.
Proof.
  destruct (skipws_show z) as (c & rest & H). intros E. rewrite E in H. discriminate.
Qed.

End DecimalText.

(** X21: a number of the range of [int32_t] written in decimal after the
    [=] of a flag bound to an integer is stored as that very number. *)
Theorem parse_decimal_int {FP : FloatingPoint}
    d prog pre token args flag z a p (w w1 : World) :
  parse (command_line d (prog :: pre) args) w = Some (w1, Returned tt) ->
  split_token token = (flag, Capture.show_int z) ->
  - 2 ^ 31 <= z <= 2 ^ 31 - 1 ->
  selected args flag = Some a -> mValue a = Some (VInt p) ->
  parse (command_line d (prog :: pre ++ [token]) args) w
  = Some ({| bools := bools w1; ints := <[p := z]> (ints w1);
             floats := floats w1; strs := strs w1; cerr := cerr w1 |},
          Returned tt).
Proof.
  rewrite !parse_scan. simpl tail. intros [= Hpre] Hsplit Hz Hsel Hval. f_equal.
  rewrite (parse_tokens_snoc _ _ _ _ _ Hpre).
  rewrite (parse_token_split _ _ _ _ _ Hsplit), Hsel, Hval.
  unfold store_value, visit_extract, bind.
  pose proof (DecimalText.show_int_not_empty z) as Hne.
  apply StrFacts.empty_false_iff in Hne. rewrite Hne.
  rewrite (DecimalText.extract_int_show z Hz). reflexivity.
Qed.

(** X22: [--device] followed by the decimal text of a number of the range
    of [int] selects exactly that number, when no further [--device] follows
    and the settings are completed. *)
Theorem main_device_decimal {PF : Capture.Platform} prog pre k post st :
  Capture.main_arguments
    (prog :: pre ++ "--device" :: Capture.show_int k :: post)
  = Some (Capture.Scanned st) ->
  "--device" ∉ post ->
  - 2 ^ 31 <= k <= 2 ^ 31 - 1 ->
  Capture.explicitDeviceIndex st = Some k.
Proof.
  rewrite CaptureFacts.main_arguments_scan. intros [= Hrun] Hno Hk.
  destruct (Capture.scan_options
              (pre ++ "--device" :: Capture.show_int k :: post) None)
    as [|dv|e] eqn:Hscan; try discriminate.
  destruct (CaptureFacts.scan_options_last (length pre) pre _ post None dv
              (le_n _) Hno Hscan) as (n & Hn & ->).
  rewrite (DecimalText.stoi_show k Hk) in Hn. injection Hn as <-.
  apply CaptureFacts.leading_numbers_device in Hrun. exact Hrun.
Qed.

(** ** Further sample runs *)

Lemma parse_presence_only_flag_witness :
  parse (command_line "capture" ("capture" :: ["-v"] ++ ["-l=junk"])
           sample_arguments) sample_world
  = Some ({| bools := {[ 1 := true ]}; ints := ints sample_world;
             floats := floats sample_world; strs := strs sample_world;
             cerr := EmptyString |}, Returned tt).
Proof.
  pose proof (@parse_presence_only_flag symbolic_floats "capture" "capture" ["-v"]
           "-l=junk" sample_arguments "-l" "junk"
           (mkArgument ["-l"; "--list"] None "List the audio devices")
           sample_world
           {| bools := {[ 1 := true ]}; ints := ints sample_world;
              floats := floats sample_world; strs := strs sample_world;
              cerr := EmptyString |}) as H.
  apply H.
  - vm_compute. reflexivity.
  - vm_compute. reflexivity.
  - vm_compute. reflexivity.
  - reflexivity.
Defined.

Lemma parse_writes_only_targets_witness :
  content (VString 4)
    {| bools := {[ 1 := true ]}; ints := {[ 2 := 5 ]};
       floats := floats sample_world; strs := strs sample_world;
       cerr := unknown_argument "--bogus" |}
  = content (VString 4) sample_world.
Proof.
  pose proof (@parse_writes_only_targets symbolic_floats "capture" "capture"
           ["-v"; "--rate=5"; "--bogus"] sample_arguments (VString 4)
           sample_world
           {| bools := {[ 1 := true ]}; ints := {[ 2 := 5 ]};
              floats := floats sample_world; strs := strs sample_world;
              cerr := unknown_argument "--bogus" |}
           (Returned tt)) as H.
  apply H.
  - vm_compute. reflexivity.
  - repeat constructor; vm_compute; discriminate.
Defined.

Lemma parse_returns_iff_witness :
  exists w',
    parse (command_line "capture" ("capture" :: ["-v"; "--rate=5"; "--bogus="])
             sample_arguments) sample_world = Some (w', Returned tt).
Proof.
  apply (proj2 (@parse_returns_iff symbolic_floats "capture" "capture"
                  ["-v"; "--rate=5"; "--bogus="] sample_arguments sample_world)).
  repeat constructor.
Defined.

Lemma parse_warns_once_per_unknown_witness :
  cerr {| bools := {[ 1 := true ]}; ints := ints sample_world;
          floats := floats sample_world; strs := strs sample_world;
          cerr := unknown_argument "--bogus" +:+ unknown_argument "--what" |}
  = cerr sample_world
      +:+ warnings sample_arguments ["--bogus"; "-v"; "--what=1"].
Proof.
  pose proof (@parse_warns_once_per_unknown symbolic_floats "capture" "capture"
           ["--bogus"; "-v"; "--what=1"] sample_arguments sample_world
           {| bools := {[ 1 := true ]}; ints := ints sample_world;
              floats := floats sample_world; strs := strs sample_world;
              cerr := unknown_argument "--bogus" +:+ unknown_argument "--what" |})
    as H.
  apply H. vm_compute. reflexivity.
Defined.

Lemma parse_twice_witness :
  exists w2,
    parse (command_line "capture" ["capture"; "--rate=48000"; "-v=false"; "--rate= "]
             sample_arguments)
      {| bools := {[ 1 := false ]}; ints := {[ 2 := 48000 ]};
         floats := floats sample_world; strs := strs sample_world;
         cerr := EmptyString |}
    = Some (w2, Returned tt)
    /\ same_destinations
         {| bools := {[ 1 := false ]}; ints := {[ 2 := 48000 ]};
            floats := floats sample_world; strs := strs sample_world;
            cerr := EmptyString |} w2.
Proof.
  apply (@parse_twice symbolic_floats "capture"
           ["capture"; "--rate=48000"; "-v=false"; "--rate= "] sample_arguments
           sample_world).
  vm_compute. reflexivity.
Defined.

Lemma parse_decimal_int_witness :
  parse (command_line "capture" ("capture" :: ["-v"] ++ ["--rate=-2147483648"])
           sample_arguments) sample_world
  = Some ({| bools := {[ 1 := true ]};
             ints := <[2 := -2147483648]> (ints sample_world);
             floats := floats sample_world; strs := strs sample_world;
             cerr := EmptyString |}, Returned tt).
Proof.
  pose proof (@parse_decimal_int symbolic_floats "capture" "capture" ["-v"]
           "--rate=-2147483648" sample_arguments "--rate" (-2147483648)
           (mkArgument ["--rate"] (Some (VInt 2)) "Sample rate in Hz") 2
           sample_world
           {| bools := {[ 1 := true ]}; ints := ints sample_world;
              floats := floats sample_world; strs := strs sample_world;
              cerr := EmptyString |}) as H.
  apply H.
  - vm_compute. reflexivity.
  - vm_compute. reflexivity.
  - lia.
  - vm_compute. reflexivity.
  - reflexivity.
Defined.

Lemma printHelp_short_help_one_line_witness :
  exists out_before out_after,
    print_arguments (maxFlagLength long_help_arguments)
      [mkArgument ["-h"; "--help"] None
         "Reads audio in fixed-size buffers from the line input and writes the raw samples to the standard output"]
      EmptyString = Some out_before
    /\ print_arguments (maxFlagLength long_help_arguments)
         [mkArgument ["-o"] (Some (VString 4))
            "Reads audio in fixed-size buffers from the line input and writes the raw samples to the standard output"]
         EmptyString = Some out_after
    /\ printHelp (command_line "Capture audio" ["capture"] long_help_arguments)
         EmptyString
       = Some (EmptyString +:+ "Capture audio" +:+ Str.endl
                 +:+ out_before
                 +:+ (HelpSpec.pad_right (HelpSpec.column_width long_help_arguments)
                        (HelpSpec.joined ["--rate"])
                        +:+ "Sample rate in Hz" +:+ Str.endl)
                 +:+ out_after).
Proof.
  apply (printHelp_short_help_one_line
           (command_line "Capture audio" ["capture"] long_help_arguments)
           EmptyString
           [mkArgument ["-h"; "--help"] None
              "Reads audio in fixed-size buffers from the line input and writes the raw samples to the standard output"]
           (mkArgument ["--rate"] (Some (VInt 2)) "Sample rate in Hz")
           [mkArgument ["-o"] (Some (VString 4))
              "Reads audio in fixed-size buffers from the line input and writes the raw samples to the standard output"]).
  - repeat constructor; vm_compute; reflexivity.
  - repeat constructor; vm_compute; discriminate.
  - reflexivity.
  - left. vm_compute. discriminate.
Defined.

Lemma printHelp_without_aliases_witness :
  printHelp
    (command_line "Capture audio" ["capture"]
       [mkArgument [] None
          "Reads audio in fixed-size buffers from the line input and writes the raw samples to the standard output"])
    EmptyString
  = Some (EmptyString +:+ "Capture audio" +:+ Str.endl
            +:+ String.concat EmptyString
                  [HelpSpec.wrap " " EmptyString 0
                     (HelpSpec.words
                        "Reads audio in fixed-size buffers from the line input and writes the raw samples to the standard output")]).
Proof.
  apply (printHelp_without_aliases
           (command_line "Capture audio" ["capture"]
              [mkArgument [] None
                 "Reads audio in fixed-size buffers from the line input and writes the raw samples to the standard output"])
           EmptyString).
  - repeat constructor.
  - repeat constructor; vm_compute; discriminate.
Defined.

Module CaptureRuns.
Import Capture CaptureFacts.

Lemma sample_names_representable : @names_representable sample_devices.
Proof.
  intros i info n. unfold Pa_GetDeviceInfo, sample_devices.
  destruct (i =? 0); [intros [= <-] [= <-]; vm_compute; discriminate|].
  destruct (i =? 1); [intros [= <-] [= <-]; vm_compute; discriminate|].
  destruct (i =? 2); [intros [= <-] [= <-]; vm_compute; discriminate|].
  destruct (i =? 3); [intros [= <-] [= <-]; vm_compute; discriminate|].
  discriminate.
Defined.

Lemma sample_line_in_3 : @line_in sample_devices 3.
Proof.
  exists {| name := Some "Rear Line-In"; maxInputChannels := 2 |}.
  split; [reflexivity|]. split; [reflexivity|].
  exists "Rear Line-In". split; [reflexivity|]. left. vm_compute. eauto.
Defined.

Lemma sample_no_line_in_below_3 j : 0 <= j < 3 -> ~ @line_in sample_devices j.
Proof.
  intros Hj (info & Hinfo & Hmax & n & Hn & Hm).
  assert (Hcases : j = 0 \/ j = 1 \/ j = 2) by lia.
  destruct Hcases as [-> | [-> | ->]]; vm_compute in Hinfo; injection Hinfo as <-;
    try (vm_compute in Hmax; discriminate).
  injection Hn as <-. vm_compute in Hm.
  destruct Hm as [[x Hx]|[x Hx]]; discriminate.
Defined.


Lemma select_device_selected_witness :
  false = false
  /\ @Pa_GetDeviceInfo sample_devices 2
     = Some {| name := Some "Microphone"; maxInputChannels := 1 |}
  /\ 1 <= 1
  /\ (1 = 2 \/ (1 = 1 /\ 1 < 2 /\ 0 < 1))
  /\ (2 = 2 /\ 0 <= 2 < 4 /\ 0 < 1).
Proof.
  apply (@select_device_selected sample_devices (Some 2) 2
           ("Device supports only 1 input channels, but requested 2. Reducing channels to 1."
              +:+ Str.endl)
           false 2 {| name := Some "Microphone"; maxInputChannels := 1 |} 1).
  - exact sample_names_representable.
  - vm_compute. reflexivity.
Defined.

Lemma select_device_exit_witness :
  @select_device sample_devices (Some 7) 2
  = Some ("Invalid device index: 7" +:+ Str.endl, true, Exit 1)
  /\ (forall log0 d,
        @choose_device sample_devices (Some 3) = Some (log0, Some d) ->
        is_Some (@Pa_GetDeviceInfo sample_devices d))
  /\ @choose_device sample_devices (Some 3) = Some (EmptyString, Some 3).
Proof.
  split; [|split].
  - destruct (@select_device_exit sample_devices (Some 7) 2
                sample_names_representable) as (Hsplit & _ & _).
    rewrite Hsplit. vm_compute. reflexivity.
  - apply (@select_device_exit sample_devices (Some 3) 2
             sample_names_representable).
  - vm_compute. reflexivity.
Defined.

Lemma select_device_prefers_line_in_witness :
  exists log info,
    @Pa_GetDeviceInfo sample_devices 3 = Some info
    /\ @select_device sample_devices None 6
       = Some (log, false, Selected 3 info (Z.min 6 (maxInputChannels info))).
Proof.
  apply (@select_device_prefers_line_in sample_devices 6 3).
  - exact sample_names_representable.
  - vm_compute. split; discriminate || reflexivity.
  - exact sample_line_in_3.
  - exact sample_no_line_in_below_3.
Defined.

Lemma main_numbers_must_lead_witness :
  4096 = 4096 /\ 2 = 2 /\ "44100.0" = @rate_44100 sample_platform.
Proof.
  apply (@main_numbers_must_lead sample_platform "capture"
           ["--device"; "3"; "2048"; "1"; "48000"]
           (@Build_Settings sample_platform 4096 2 "44100.0" (Some 3))).
  - vm_compute. reflexivity.
  - intros a [= <-]. reflexivity.
Defined.

Lemma main_listing_wins_witness :
  @main_arguments sample_platform
    ("capture" :: ["99999999999999999999999"; "--bogus"] ++ "-l" :: ["--device"; "x"])
  = Some Listing.
Proof.
  apply (@main_listing_wins sample_platform "capture"
           ["99999999999999999999999"; "--bogus"] "-l" ["--device"; "x"]).
  - reflexivity.
  - intros H. apply list_elem_of_In in H. simpl in H. intuition discriminate.
Defined.

Lemma main_device_value_not_number_witness :
  @main_arguments sample_platform
    ("capture" :: ["2048"; "--device"; "3"] ++ "--device" :: "-l" :: ["--device"; "3"])
  = Some (Uncaught invalid_argument).
Proof.
  apply (@main_device_value_not_number sample_platform "capture"
           ["2048"; "--device"; "3"] "-l" ["--device"; "3"] invalid_argument).
  - vm_compute. reflexivity.
  - reflexivity.
Defined.

Lemma main_last_device_wins_witness :
  exists k, stoi "3" = Ok k
            /\ explicitDeviceIndex
                 (@Build_Settings sample_platform 2048 2 "44100.0" (Some 3))
               = Some k.
Proof.
  apply (@main_last_device_wins sample_platform "capture"
           ["2048"; "--device"; "5"] "3" ["--verbose"; "--device"]).
  - vm_compute. reflexivity.
  - intros H. apply list_elem_of_In in H. simpl in H. intuition discriminate.
Defined.

Lemma main_trailing_device_ignored_witness :
  @main_arguments sample_platform ("capture" :: ["--device"; "3"] ++ ["--device"])
  = @main_arguments sample_platform ("capture" :: ["--device"; "3"])
  /\ @main_arguments sample_platform ("capture" :: ["2048"; "--device"] ++ ["--device"])
     = Some (Uncaught invalid_argument).
Proof.
  split.
  - apply (@main_trailing_device_ignored sample_platform "capture" ["--device"; "3"]).
    vm_compute. discriminate.
  - apply (@main_trailing_device_ignored sample_platform "capture"
             ["2048"; "--device"]).
    vm_compute. reflexivity.
Defined.

End CaptureRuns.

Lemma main_device_decimal_witness :
  Capture.explicitDeviceIndex
    (@Capture.Build_Settings Capture.sample_platform 4096 2 "44100.0" (Some (-7)))
  = Some (-7).
Proof.
  apply (@main_device_decimal Capture.sample_platform "capture" ["--verbose"]
           (-7) ["-x"]).
  - vm_compute. reflexivity.
  - intros H. apply list_elem_of_In in H. simpl in H. intuition discriminate.
  - lia.
Defined.
